(** * react-native-queue: the job store and the scheduling loop

    A shallow embedding of [Models/Queue.js] and [Models/MemoryStorage.js].

    JavaScript job records are objects that are shared by reference between
    the storage singleton [memoryStorage.items] and the local variables of
    the queue ([markActive] and [merge] mutate the very objects that the
    store holds).  The embedding therefore keeps an explicit object heap:
    a job reference is an address, [memoryStorage.items] maps property keys
    to addresses, and field writes update the heap. *)

From Stdlib Require Import ZArith List String Bool Lia Arith.
From Stdlib Require Import Sorting.Sorted Sorting.Permutation.
Import ListNotations.
Open Scope string_scope.
Open Scope list_scope.
Open Scope Z_scope.

(** ** Job records (the JobSchema of the storage files) *)

(** [job.data] is the JSON text of an object [{attempts, failedAttempts?,
    errors?}]; the two optional properties are absent until the first
    failure.  [JSON.parse (JSON.stringify d)] is the identity on such
    objects, so the field holds the object itself. *)
Record JobData : Type := mkJobData {
  attempts : Z;
  failedAttempts : option Z;
  errors : option (list string)
}.

Record Job : Type := mkJob {
  id : string;
  name : string;
  payload : string;          (* JSON.stringify(payload) *)
  data : JobData;
  priority : Z;
  active : bool;
  timeout : Z;
  created : Z;               (* Date, as milliseconds *)
  failed : option Z          (* Date?, [None] is null *)
}.

(** A reference to a job object. *)
Definition ref : Type := nat.

(** The object heap: the record each allocated address currently holds. *)
Definition Heap : Type := ref -> Job.

Definition upd (h : Heap) (r : ref) (j : Job) : Heap :=
  fun x => if Nat.eqb x r then j else h x.

(** Field assignments [job.active = v], [job.failed = v], [job.data = v]. *)
Definition set_active (v : bool) (j : Job) : Job :=
  mkJob (id j) (name j) (payload j) (data j) (priority j) v
        (timeout j) (created j) (failed j).

Definition set_failed (v : option Z) (j : Job) : Job :=
  mkJob (id j) (name j) (payload j) (data j) (priority j) (active j)
        (timeout j) (created j) v.

Definition set_data (v : JobData) (j : Job) : Job :=
  mkJob (id j) (name j) (payload j) v (priority j) (active j)
        (timeout j) (created j) (failed j).

(** The object [jobMerge] built by [processJob]: a property that was never
    assigned is [None]. *)
Record Fields : Type := mkFields {
  f_data : option JobData;
  f_active : option bool;
  f_failed : option Z
}.

(** [Object.assign(job, fields)] *)
Definition assign (j : Job) (f : Fields) : Job :=
  let j1 := match f_data f with Some d => set_data d j | None => j end in
  let j2 := match f_active f with Some a => set_active a j1 | None => j1 end in
  match f_failed f with Some t => set_failed (Some t) j2 | None => j2 end.

Definition JOB_PREFIX : string := "@queue:Job-".

(** ** [memoryStorage]: the key/value singleton

    [items] is a JavaScript object used as a map.  Its own string keys are
    enumerated by [Object.keys] in insertion order, assigning to an existing
    key keeps the key's position, and [delete] followed by a new assignment
    moves the key to the end: an association list in insertion order. *)
Module memoryStorage.

Definition Items : Type := list (string * ref).

(** [items[key]] *)
Fixpoint lookup (items : Items) (key : string) : option ref :=
  match items with
  | [] => None
  | (k, v) :: rest => if String.eqb k key then Some v else lookup rest key
  end.

(** [get(key)] with an array of keys: absent keys are skipped. *)
Definition get (items : Items) (keys : list string) : list ref :=
  flat_map (fun k => match lookup items k with
                     | Some v => [v]
                     | None => []
                     end) keys.

(** [items[key] = value] *)
Fixpoint save_key (items : Items) (key : string) (value : ref) : Items :=
  match items with
  | [] => [(key, value)]
  | (k, v) :: rest =>
      if String.eqb k key then (k, value) :: rest
      else (k, v) :: save_key rest key value
  end.

(** [save(pairs)] with an array of key/value pairs, assigned in order. *)
Definition save (items : Items) (pairs : list (string * ref)) : Items :=
  fold_left (fun it p => save_key it (fst p) (snd p)) pairs items.

(** [delete items[key]] *)
Definition delete_key (items : Items) (key : string) : Items :=
  filter (fun p => negb (String.eqb (fst p) key)) items.

(** [delete(keys)] with an array of keys. *)
Definition delete (items : Items) (keys : list string) : Items :=
  fold_left delete_key keys items.

(** [getKeys(prefix)] *)
Definition getKeys (items : Items) (prefix : string) : list string :=
  filter (String.prefix prefix) (map fst items).

(** [get(key)] with a single key: the value, or [null] ([None]) when the
    key is absent.  The values held are job objects, which are truthy. *)
Definition get_key (items : Items) (key : string) : option ref :=
  match lookup items key with
  | Some v => Some v
  | None => None
  end.

(** [deleteAll()]: [items = {}] *)
Definition deleteAll (items : Items) : Items := [].

End memoryStorage.

(** ** [MemoryStorage]: the job store over [memoryStorage] *)
Module MemoryStorage.

(** The heap of job objects, the next free address, and the contents of
    [memoryStorage.items]. *)
Record DB : Type := mkDB {
  heap : Heap;
  next : ref;
  items : memoryStorage.Items
}.

Definition with_items (db : DB) (it : memoryStorage.Items) : DB :=
  mkDB (heap db) (next db) it.

Definition with_heap (db : DB) (h : Heap) : DB :=
  mkDB h (next db) (items db).

(** Evaluation of an object literal: a fresh object is allocated. *)
Definition alloc (db : DB) (j : Job) : DB * ref :=
  (mkDB (upd (heap db) (next db) j) (S (next db)) (items db), next db).

Definition _getKey (db : DB) (job : ref) : string :=
  (JOB_PREFIX ++ id (heap db job))%string.

Definition create (db : DB) (job : ref) : DB :=
  with_items db (memoryStorage.save_key (items db) (_getKey db job) job).

Definition objects (db : DB) : list ref :=
  memoryStorage.get (items db) (memoryStorage.getKeys (items db) JOB_PREFIX).

Definition save (db : DB) (job : ref) : DB := create db job.

Definition saveAll (db : DB) (jobs : list ref) : DB :=
  with_items db
    (memoryStorage.save (items db) (map (fun j => (_getKey db j, j)) jobs)).

(** [delete(job)] for a single job *)
Definition delete (db : DB) (job : ref) : DB :=
  with_items db (memoryStorage.delete_key (items db) (_getKey db job)).

(** [delete(jobs)] for an array of jobs *)
Definition deleteMany (db : DB) (jobs : list ref) : DB :=
  with_items db (memoryStorage.delete (items db) (map (_getKey db) jobs)).

Definition deleteAll (db : DB) : DB :=
  with_items db
    (memoryStorage.delete (items db)
       (memoryStorage.getKeys (items db) JOB_PREFIX)).

Definition merge (db : DB) (job : ref) (fields : Fields) : DB :=
  save (with_heap db (upd (heap db) job (assign (heap db job) fields))) job.

(** The two filters of [findNextJobs]. *)
Definition selectable (j : Job) : bool :=
  negb (active j) && match failed j with None => true | Some _ => false end.

Definition selectable_within (timeoutUpperBound : Z) (j : Job) : bool :=
  selectable j && (0 <? timeout j) && (timeout j <? timeoutUpperBound).

(** The comparator of [_.orderBy(jobs, ['priority','created'],
    ['desc','asc'])]: [Lt] when [a] sorts before [b], [Eq] when both keys
    tie (the input order then decides, the sort is stable). *)
Definition compareMultiple (a b : Job) : comparison :=
  match Z.compare (priority b) (priority a) with
  | Eq => Z.compare (created a) (created b)
  | c => c
  end.

(** Stable insertion: [x] stood before every element of the sorted list
    [l], so it passes only the elements that sort strictly before it. *)
Fixpoint insert (h : Heap) (x : ref) (l : list ref) : list ref :=
  match l with
  | [] => [x]
  | y :: rest =>
      match compareMultiple (h y) (h x) with
      | Lt => y :: insert h x rest
      | _ => x :: l
      end
  end.

Definition orderBy (h : Heap) (jobs : list ref) : list ref :=
  fold_right (insert h) [] jobs.

Definition findNextJobs (db : DB) (timeoutUpperBound : option Z) : list ref :=
  let jobs := objects db in
  let jobs :=
    match timeoutUpperBound with
    | Some ub => filter (fun j => selectable_within ub (heap db j)) jobs
    | None => filter (fun j => selectable (heap db j)) jobs
    end in
  orderBy (heap db) jobs.

(** [jobs.forEach(job => job.active = true)] *)
Definition activate (h : Heap) (jobs : list ref) : Heap :=
  fold_left (fun h' job => upd h' job (set_active true (h' job))) jobs h.

Definition markActive (db : DB) (jobs : list ref) : DB :=
  saveAll (with_heap db (activate (heap db) jobs)) jobs.

Definition deleteByName (db : DB) (jobName : string) : DB :=
  let jobs := objects db in
  let jobs := filter (fun j => String.eqb (name (heap db j)) jobName) jobs in
  match jobs with
  | [] => db
  | _ => deleteMany db jobs
  end.

(** [jobs.forEach(job => job.failed = null)] *)
Definition unfail (h : Heap) (jobs : list ref) : Heap :=
  fold_left (fun h' job => upd h' job (set_failed None (h' job))) jobs h.

Definition resetFailedJobs (db : DB) : DB :=
  let jobs := objects db in
  saveAll (with_heap db (unfail (heap db) jobs)) jobs.

Definition empty : DB :=
  mkDB (fun _ => mkJob "" "" "" (mkJobData 0 None None) 0 false 0 0 None)
       O [].

End MemoryStorage.

(** ** [Queue]: the scheduler

    The methods of [Queue] are async functions on one thread.  The
    embedding follows their effects on the store in program order: a call
    that is not awaited ([markActive] in [getConcurrentJobs],
    [resetFailedJobs] and [start] in [createJob]) takes effect where it is
    made, and the outcome of a method is the settlement of the promise it
    returns. *)

(** Arguments of [createJob]. *)
Module Options.
(** The [options] object: an omitted property is [None]. *)
Record t : Type := mk {
  timeout : option Z;
  attempts : option Z;
  priority : option Z
}.
End Options.

Module Payload.
(** The [payload] object: its optional [id] property, and its JSON text. *)
Record t : Type := mk {
  id : option string;
  json : string
}.
End Payload.

(** [v || d] on a number that may be undefined: [0] is falsy. *)
Definition num_or (v : option Z) (d : Z) : Z :=
  match v with
  | Some n => if n =? 0 then d else n
  | None => d
  end.

(** [v || d] on a string that may be undefined: [""] is falsy. *)
Definition str_or (v : option string) (d : string) : string :=
  match v with
  | Some s => if String.eqb s "" then d else s
  | None => d
  end.

(** [v < 0] on a number that may be undefined: [undefined < 0] is false. *)
Definition is_negative (v : option Z) : bool :=
  match v with
  | Some n => n <? 0
  | None => false
  end.

(** [array.slice(0, end)] *)
Definition slice0 {A : Type} (l : list A) (e : Z) : list A :=
  let len := Z.of_nat (List.length l) in
  firstn (Z.to_nat (if e <? 0 then Z.max (len + e) 0 else e)) l.

Inductive Status : Type := st_inactive | st_active.

Definition Status_eqb (a b : Status) : bool :=
  match a, b with
  | st_inactive, st_inactive | st_active, st_active => true
  | _, _ => false
  end.

Inductive Callback : Type :=
  onStart | onSuccess | onFailure | onFailed | onComplete.

(** One invocation of [worker.executeJobLifecycleCallback]. *)
Record Call : Type := mkCall {
  callback : Callback;
  jobName : string;
  jobId : string;
  jobPayload : string;
  jobResult : option string    (* [None] is undefined *)
}.

(** How the promise of [worker.executeJob(job)] settles, if it does. *)
Inductive Outcome : Type :=
| Resolved (result : string)
| Rejected (message : string)
| Pending.

(** The settlement of the promise of an async method: resolved with a
    value, or rejected with the error of a [throw]. *)
Inductive Result (A : Type) : Type :=
| Ok (value : A)
| Throw (message : string).
Arguments Ok {A} value.
Arguments Throw {A} message.

(** What the surroundings contribute to one run of [start]: the clock, the
    settlement of every dispatched handler, and calls of [stop] made while
    a pass of the loop is waiting. *)
Record World : Type := mkWorld {
  startTime : Z;                       (* [Date.now()] before the loop *)
  dateNow : nat -> Z;                  (* [Date.now()] in pass [i] *)
  newDate : nat -> Job -> Z;           (* [new Date()] when a job fails *)
  executeJob : nat -> Job -> Outcome;  (* handler run in pass [i] *)
  stopCalled : nat -> bool             (* [stop()] called during pass [i] *)
}.

Inductive StartResult : Type :=
| ReturnedFalse      (* the promise resolved with [false] *)
| Finished           (* the promise resolved with [undefined] *)
| StillRunning.      (* the loop has not left its last pass *)

Module Queue.
Import MemoryStorage.

Record t : Type := mk {
  jobDB : DB;
  status : Status;
  executeFailedJobsOnStart : bool;
  calls : list Call     (* lifecycle callbacks invoked so far, oldest first *)
}.

Definition with_jobDB (q : t) (db : DB) : t :=
  mk db (status q) (executeFailedJobsOnStart q) (calls q).

Definition with_status (q : t) (s : Status) : t :=
  mk (jobDB q) s (executeFailedJobsOnStart q) (calls q).

(** [queueFactory(storageFactory, executeFailedJobsOnStart)] over a store
    that already holds [db]. *)
Definition queueFactory (db : DB) (executeFailedJobsOnStart : bool) : t :=
  mk db st_inactive executeFailedJobsOnStart [].

Section Worker.

(** [Worker.js] is not among the sources.  [getConcurrency] is its
    lookup of the concurrency registered for a job name. *)
Variable getConcurrency : string -> Z.

(** Modelled from the spec: [worker.executeJobLifecycleCallback] invokes
    the callback registered for the event, if any; here the invocation
    is recorded. *)
Definition executeJobLifecycleCallback (cb : Callback)
    (jobName jobId jobPayload : string) (jobResult : option string)
    (q : t) : t :=
  mk (jobDB q) (status q) (executeFailedJobsOnStart q)
     (calls q ++ [mkCall cb jobName jobId jobPayload jobResult]).

(** The object literal handed to [jobDB.create]. *)
Definition newJob (name : string) (payload : Payload.t)
    (options : Options.t) (uuid : string) (now : Z) : Job :=
  mkJob (str_or (Payload.id payload) uuid)
        name
        (Payload.json payload)
        (mkJobData (num_or (Options.attempts options) 1) None None)
        (num_or (Options.priority options) 0)
        false
        (match Options.timeout options with
         | Some n => if 0 <=? n then n else 25000
         | None => 25000
         end)
        now
        None.

Definition stop (q : t) : t := with_status q st_inactive.

(** [timeoutUpperBound] in [getConcurrentJobs]: undefined without a
    lifespan. *)
Definition timeoutUpperBound (queueLifespanRemaining : option Z)
  : option Z :=
  match queueLifespanRemaining with
  | Some l => Some (l - 499)
  | None => None
  end.

Definition getConcurrentJobs (queueLifespanRemaining : option Z) (q : t)
  : t * list ref :=
  let jobs :=
    findNextJobs (jobDB q) (timeoutUpperBound queueLifespanRemaining) in
  match jobs with
  | [] => (q, [])
  | nextJob :: _ =>
      let h := heap (jobDB q) in
      let concurrency := getConcurrency (name (h nextJob)) in
      let allRelatedJobs :=
        filter (fun j => String.eqb (name (h j)) (name (h nextJob))) jobs in
      let concurrentJobs := slice0 allRelatedJobs concurrency in
      (with_jobDB q (markActive (jobDB q) concurrentJobs), concurrentJobs)
  end.

(** [processJob] up to its [await]: the fields cloned off the job, and
    the [onStart] callback. *)
Definition processJob_begin (job : ref) (q : t) : t :=
  let j := heap (jobDB q) job in
  executeJobLifecycleCallback onStart (name j) (id j) (payload j) None q.

(** [jobData.failedAttempts] after the increment. *)
Definition bump (failedAttempts : option Z) : Z :=
  match failedAttempts with
  | Some n => if n =? 0 then 1 else n + 1
  | None => 1
  end.

(** [jobData.errors] after the error is logged. *)
Definition logError (errors : option (list string)) (message : string)
  : list string :=
  match errors with
  | Some l => l ++ [message]
  | None => [message]
  end.

(** [processJob] after [worker.executeJob(job)] has settled.  The three
    cloned fields never change after creation, so they are read here. *)
Definition processJob_settle (job : ref) (outcome : Outcome) (now : Z)
    (q : t) : t :=
  let j := heap (jobDB q) job in
  let jobName := name j in
  let jobId := id j in
  let jobPayload := payload j in
  match outcome with
  | Pending => q
  | Resolved jobResult =>
      let q := with_jobDB q (delete (jobDB q) job) in
      let q := executeJobLifecycleCallback onSuccess jobName jobId
                 jobPayload (Some jobResult) q in
      executeJobLifecycleCallback onComplete jobName jobId jobPayload
        (Some jobResult) q
  | Rejected message =>
      let jobData := data j in
      let failedAttempts := bump (failedAttempts jobData) in
      let errors := logError (errors jobData) message in
      let jobData :=
        mkJobData (attempts jobData) (Some failedAttempts) (Some errors) in
      let jobMerge :=
        mkFields (Some jobData) (Some false)
          (if attempts jobData <=? failedAttempts then Some now
           else None) in
      let q := with_jobDB q (merge (jobDB q) job jobMerge) in
      let q := executeJobLifecycleCallback onFailure jobName jobId
                 jobPayload None q in
      if attempts jobData <=? failedAttempts then
        let q := executeJobLifecycleCallback onFailed jobName jobId
                   jobPayload None q in
        executeJobLifecycleCallback onComplete jobName jobId jobPayload
          None q
      else q
  end.

Definition processJob (job : ref) (outcome : Outcome) (now : Z) (q : t)
  : t :=
  processJob_settle job outcome now (processJob_begin job q).

Definition flushQueue (jobName : option string) (q : t) : t :=
  match jobName with
  | Some n =>
      if String.eqb n "" then with_jobDB q (deleteAll (jobDB q))
      else with_jobDB q (deleteByName (jobDB q) n)
  | None => with_jobDB q (deleteAll (jobDB q))
  end.

(** [getJobs()] *)
Definition getJobs (q : t) : list ref := objects (jobDB q).

Section Run.

Variable w : World.
Variable lifespan : option Z.

(** One pass dispatches the whole batch: every [processJob] runs up to
    its [await] in batch order ([onStart] fires, the handler is
    started), then the handlers settle (here in batch order as
    well). *)
Definition dispatch (pass : nat) (jobs : list ref) (q : t)
  : list (ref * Outcome * Z) :=
  map (fun job =>
         let j := heap (jobDB q) job in
         (job, executeJob w pass j, newDate w pass j)) jobs.

Definition settleAll (runs : list (ref * Outcome * Z)) (q : t) : t :=
  fold_left
    (fun q' run =>
       match run with
       | (job, outcome, now) => processJob_settle job outcome now q'
       end) runs q.

Definition settles (run : ref * Outcome * Z) : bool :=
  match run with
  | (_, Pending, _) => false
  | _ => true
  end.

(** The [do ... while] loop of [start]; the boolean tells whether the
    loop was left. *)
Fixpoint loop (fuel : nat) (pass : nat) (q : t) : t * bool :=
  match fuel with
  | O => (q, false)
  | S fuel' =>
      let lifespanRemaining :=
        match lifespan with
        | Some l => Some (l - (dateNow w pass - startTime w))
        | None => None
        end in
      let (q1, concurrentJobs) := getConcurrentJobs lifespanRemaining q in
      let q2 := fold_left (fun q' job => processJob_begin job q')
                  concurrentJobs q1 in
      let runs := dispatch pass concurrentJobs q2 in
      let q3 := settleAll runs q2 in
      if forallb settles runs then
        let q4 := if stopCalled w pass then stop q3 else q3 in
        if Status_eqb (status q4) st_active
           && negb (Nat.eqb (List.length concurrentJobs) 0)
        then loop fuel' (S pass) q4
        else (q4, true)
      else (q3, false)
  end.

Definition start (fuel : nat) (q : t) : t * StartResult :=
  if Status_eqb (status q) st_active then (q, ReturnedFalse)
  else
    let q := with_status q st_active in
    match loop fuel O q with
    | (q', true) => (with_status q' st_inactive, Finished)
    | (q', false) => (q', StillRunning)
    end.

End Run.

(** The one-shot reset of [createJob]: the pending flag is consumed. *)
Definition resetFailedOnce (q : t) : t :=
  if executeFailedJobsOnStart q then
    mk (resetFailedJobs (jobDB q)) (status q) false (calls q)
  else q.

(** [createJob] up to and including [jobDB.create]. *)
Definition createJob_store (name : option string) (payload : Payload.t)
    (options : Options.t) (uuid : string) (now : Z) (q : t)
  : t * Result unit :=
  match name with
  | None => (q, Throw "Job name must be supplied.")
  | Some name =>
      if String.eqb name "" then (q, Throw "Job name must be supplied.")
      else if is_negative (Options.timeout options)
              || is_negative (Options.attempts options)
      then (q, Throw "Invalid job option.")
      else
        let q := resetFailedOnce q in
        let (db, job) :=
          alloc (jobDB q) (newJob name payload options uuid now) in
        (with_jobDB q (create db job), Ok tt)
  end.

(** [createJob]; the loop it starts runs without a lifespan, and [fuel]
    bounds the passes of that loop that are followed. *)
Definition createJob (w : World) (fuel : nat) (name : option string)
    (payload : Payload.t) (options : Options.t) (startQueue : bool)
    (uuid : string) (now : Z) (q : t) : t * Result unit :=
  match createJob_store name payload options uuid now q with
  | (q, Throw m) => (q, Throw m)
  | (q, Ok _) =>
      if startQueue && Status_eqb (status q) st_inactive
      then (fst (start w None fuel q), Ok tt)
      else (q, Ok tt)
  end.

End Worker.

End Queue.

(** ** [CachedAsyncStorage]: the job store kept in an array

    [this.db] is an array of job objects.  The backup of the array to the
    device storage on a timer ([_restore], [_backup]) is left out. *)
Module CachedAsyncStorage.

(** The heap of job objects, the next free address, and [this.db]. *)
Record DB : Type := mkDB {
  heap : Heap;
  next : ref;
  db : list ref
}.

Definition with_db (s : DB) (l : list ref) : DB := mkDB (heap s) (next s) l.

Definition with_heap (s : DB) (h : Heap) : DB := mkDB h (next s) (db s).

(** [this.db[i] === obj.id]: the left side is a job object and the right
    side the string [id] of a job; strict equality of an object and a
    string never holds. *)
Definition object_equals_string (el : ref) (s : string) : bool := false.

Definition create (s : DB) (obj : ref) : DB :=
  let shouldSkip :=
    existsb (fun el => object_equals_string el (id (heap s obj))) (db s) in
  if shouldSkip then s else with_db s (db s ++ [obj]).

(** [this.db.slice()] *)
Definition objects (s : DB) : list ref := db s.

Definition save (s : DB) (obj : ref) : DB :=
  with_db s
    (map (fun el => if object_equals_string el (id (heap s obj)) then obj
                    else el) (db s)).

Definition saveAll (s : DB) (objs : list ref) : DB := fold_left save objs s.

(** [delete(obj)] for a single job *)
Definition delete (s : DB) (obj : ref) : DB :=
  with_db s
    (filter (fun el => negb (String.eqb (id (heap s el)) (id (heap s obj))))
       (db s)).

(** [delete(objs)] for an array of jobs: [ids.indexOf(el.id) === -1] *)
Definition deleteMany (s : DB) (objs : list ref) : DB :=
  let ids := map (fun a => id (heap s a)) objs in
  with_db s
    (filter (fun el => negb (existsb (String.eqb (id (heap s el))) ids))
       (db s)).

Definition deleteAll (s : DB) : DB := with_db s [].

Definition merge (s : DB) (job : ref) (fields : Fields) : DB :=
  save (with_heap s (upd (heap s) job (assign (heap s job) fields))) job.

Definition findNextJobs (s : DB) (timeoutUpperBound : option Z) : list ref :=
  let jobs := objects s in
  let jobs :=
    match timeoutUpperBound with
    | Some ub =>
        filter (fun j => MemoryStorage.selectable_within ub (heap s j)) jobs
    | None => filter (fun j => MemoryStorage.selectable (heap s j)) jobs
    end in
  MemoryStorage.orderBy (heap s) jobs.

Definition markActive (s : DB) (jobs : list ref) : DB :=
  saveAll (with_heap s (MemoryStorage.activate (heap s) jobs)) jobs.

Definition deleteByName (s : DB) (jobName : string) : DB :=
  let jobs := objects s in
  let jobs := filter (fun j => String.eqb (name (heap s j)) jobName) jobs in
  match jobs with
  | [] => s
  | _ => deleteMany s jobs
  end.

Definition resetFailedJobs (s : DB) : DB :=
  let jobs := objects s in
  saveAll (with_heap s (MemoryStorage.unfail (heap s) jobs)) jobs.

End CachedAsyncStorage.

(** ** Vocabulary of the properties *)

(** [a] may stand before [b]: higher priority first, and among equal
    priorities the older job first. *)
Definition before (a b : Job) : Prop :=
  priority b < priority a \/ (priority a = priority b /\ created a <= created b).

(** The filter [findNextJobs] applies for a given bound. *)
Definition eligible (ub : option Z) (j : Job) : bool :=
  match ub with
  | Some u => MemoryStorage.selectable_within u j
  | None => MemoryStorage.selectable j
  end.

Fixpoint distinct (keys : list string) : bool :=
  match keys with
  | [] => true
  | k :: rest => negb (existsb (String.eqb k) rest) && distinct rest
  end.

(** The stores that [MemoryStorage] builds: a JavaScript object has each
    key once, every job sits under the key made from its own [id], and
    every stored reference is an allocated object. *)
Definition wf (db : MemoryStorage.DB) : bool :=
  distinct (map fst (MemoryStorage.items db))
  && forallb
       (fun p => String.eqb (fst p) (MemoryStorage._getKey db (snd p))
                 && Nat.ltb (snd p) (MemoryStorage.next db))
       (MemoryStorage.items db).

(** [jobData.failedAttempts] read as a number: absent counts as [0]. *)
Definition failures (j : Job) : Z :=
  match failedAttempts (data j) with
  | Some n => n
  | None => 0
  end.

(** The attempts a job can still consume before the loop stops selecting
    it: none once it is marked failed. *)
Definition budget (j : Job) : nat :=
  match failed j with
  | Some _ => O
  | None => S (Z.to_nat (attempts (data j) - failures j))
  end.

Definition total_budget (db : MemoryStorage.DB) : nat :=
  list_sum (map (fun p => budget (MemoryStorage.heap db (snd p)))
              (MemoryStorage.items db)).

(** The operations of the engine, as its users and its own loop invoke
    them. *)
Inductive Op : Type :=
| op_createJob (w : World) (fuel : nat) (name : option string)
    (payload : Payload.t) (options : Options.t) (startQueue : bool)
    (uuid : string) (now : Z)
| op_start (w : World) (lifespan : option Z) (fuel : nat)
| op_stop
| op_getConcurrentJobs (queueLifespanRemaining : option Z)
| op_processJob (job : ref) (outcome : Outcome) (now : Z)
| op_flushQueue (jobName : option string)
| op_resetFailedJobs.

Definition run_op (getConcurrency : string -> Z) (op : Op) (q : Queue.t)
  : Queue.t :=
  match op with
  | op_createJob w fuel name payload options startQueue uuid now =>
      fst (Queue.createJob getConcurrency w fuel name payload options
             startQueue uuid now q)
  | op_start w lifespan fuel =>
      fst (Queue.start getConcurrency w lifespan fuel q)
  | op_stop => Queue.stop q
  | op_getConcurrentJobs l => fst (Queue.getConcurrentJobs getConcurrency l q)
  | op_processJob job outcome now => Queue.processJob job outcome now q
  | op_flushQueue jobName => Queue.flushQueue jobName q
  | op_resetFailedJobs =>
      Queue.with_jobDB q (MemoryStorage.resetFailedJobs (Queue.jobDB q))
  end.


Fixpoint run (getConcurrency : string -> Z) (ops : list Op) (q : Queue.t)
  : Queue.t :=
  match ops with
  | [] => q
  | op :: rest => run getConcurrency rest (run_op getConcurrency op q)
  end.


(** The specification's [v ?? d]: the default replaces only an omitted
    value. *)
Definition nullish (v : option Z) (d : Z) : Z :=
  match v with
  | Some n => n
  | None => d
  end.





(** [processJob] is handed a job object: a reference that was allocated. *)
Definition allocated (op : Op) (q : Queue.t) : bool :=
  match op with
  | op_processJob job _ _ => Nat.ltb job (MemoryStorage.next (Queue.jobDB q))
  | _ => true
  end.

Fixpoint all_allocated (getConcurrency : string -> Z) (ops : list Op)
    (q : Queue.t) : bool :=
  match ops with
  | [] => true
  | op :: rest =>
      allocated op q
      && all_allocated getConcurrency rest (run_op getConcurrency op q)
  end.

(** [processJob] of one job, once for each of a list of failed attempts
    (the error message and the time of each). *)
Definition failAll (job : ref) (attempts : list (string * Z)) (q : Queue.t)
  : Queue.t :=
  fold_left
    (fun q' a => Queue.processJob job (Rejected (fst a)) (snd a) q')
    attempts q.

(** No stored job is marked active: nothing is in flight. *)
Definition idle (db : MemoryStorage.DB) : Prop :=
  forall r, In r (MemoryStorage.objects db) ->
            active (MemoryStorage.heap db r) = false.

(** A [MemoryStorage] store and a [CachedAsyncStorage] store that hold the
    same job objects in the same order, the first of them well formed. *)
Definition same_jobs (m : MemoryStorage.DB) (c : CachedAsyncStorage.DB)
  : Prop :=
  wf m = true
  /\ MemoryStorage.heap m = CachedAsyncStorage.heap c
  /\ MemoryStorage.objects m = CachedAsyncStorage.objects c.

(** ** A sample queue *)

(** [mail] jobs run two at a time, everything else one at a time. *)
Definition sample_concurrency (n : string) : Z :=
  if String.eqb n "mail" then 2 else 1.

(** Handlers of [mail] jobs succeed, every other handler throws. *)
Definition sample_world : World :=
  mkWorld 0 (fun pass => Z.of_nat pass) (fun pass _ => 2000 + Z.of_nat pass)
    (fun _ j => if String.eqb (name j) "mail" then Resolved "sent"
                else Rejected "boom")
    (fun _ => false).

Definition enqueue (name id : string) (priority attempts : Z) (q : Queue.t)
  : Queue.t :=
  fst (Queue.createJob_store (Some name) (Payload.mk (Some id) "{}")
         (Options.mk None (Some attempts) (Some priority)) "c0ffee" 1000 q).

(** One [report] job and three [mail] jobs, none started. *)
Definition sample_queue : Queue.t :=
  enqueue "mail" "m3" 3 1
    (enqueue "mail" "m2" 3 1
       (enqueue "mail" "m1" 3 1
          (enqueue "report" "r1" 5 1
             (Queue.queueFactory MemoryStorage.empty false)))).

(** The [report] job has failed its only attempt. *)
Definition sample_failed : Queue.t :=
  Queue.processJob O (Rejected "boom") 2000 sample_queue.

Definition sample_ops : list Op :=
  [ op_createJob sample_world 5 (Some "report") (Payload.mk (Some "r1") "{}")
      (Options.mk None None None) true "c0ffee" 3000;
    op_flushQueue (Some "mail");
    op_start sample_world (Some 60000) 5;
    op_processJob O (Rejected "late") 4000;
    op_getConcurrentJobs None;
    op_stop ].

(** The sample queue with one more job, [sync], that has no timeout. *)
Definition sample_untimed : Queue.t :=
  fst (Queue.createJob_store (Some "sync") (Payload.mk (Some "s1") "{}")
         (Options.mk (Some 0) None None) "c0ffee" 1000 sample_queue).



(** The jobs of the sample queue, held by a [CachedAsyncStorage]. *)
Definition sample_cached : CachedAsyncStorage.DB :=
  CachedAsyncStorage.mkDB (MemoryStorage.heap (Queue.jobDB sample_queue))
    (MemoryStorage.next (Queue.jobDB sample_queue))
    (MemoryStorage.objects (Queue.jobDB sample_queue)).

(** * Properties *)

(** ** The order of [findNextJobs] *)

Section Ordering.
Import MemoryStorage.

Variable h : Heap.

Lemma compareMultiple_Lt (a b : Job) :
  compareMultiple a b = Lt ->
  priority b < priority a \/ (priority a = priority b /\ created a < created b).
Proof.
  unfold compareMultiple.
  destruct (Z.compare_spec (priority b) (priority a)) as [E|L|G];
    destruct (Z.compare_spec (created a) (created b)); intros; try discriminate; lia.
Qed.

Lemma compareMultiple_not_Lt (a b : Job) :
  compareMultiple a b <> Lt -> before b a.
Proof.
  unfold compareMultiple, before.
  destruct (Z.compare_spec (priority b) (priority a)) as [E|L|G];
    destruct (Z.compare_spec (created a) (created b)); intros; try congruence; lia.
Qed.

Lemma before_trans (a b c : Job) : before a b -> before b c -> before a c.
Proof. unfold before; lia. Qed.

Lemma insert_perm (x : ref) (l : list ref) : Permutation (insert h x l) (x :: l).
Proof.
  induction l as [|y rest IH]; simpl; [reflexivity|].
  destruct (compareMultiple (h y) (h x)); try reflexivity.
  rewrite IH. apply perm_swap.
Qed.

Lemma orderBy_perm (l : list ref) : Permutation (orderBy h l) l.
Proof.
  induction l as [|x rest IH]; simpl; [reflexivity|].
  rewrite insert_perm. now constructor.
Qed.

Lemma orderBy_In (l : list ref) (x : ref) : In x (orderBy h l) <-> In x l.
Proof.
  split; apply Permutation_in; [|symmetry]; apply orderBy_perm.
Qed.

Lemma insert_sorted (x : ref) (l : list ref) :
  StronglySorted (fun a b => before (h a) (h b)) l ->
  StronglySorted (fun a b => before (h a) (h b)) (insert h x l).
Proof.
  induction 1 as [|y rest Hs IH Hall]; simpl.
  - repeat constructor.
  - destruct (compareMultiple (h y) (h x)) eqn:E.
    + constructor; [now constructor|].
      assert (Hxy : before (h x) (h y))
        by (apply compareMultiple_not_Lt; congruence).
      constructor; [exact Hxy|].
      eapply Forall_impl; [|exact Hall].
      intros z Hz. eapply before_trans; eauto.
    + constructor; [exact IH|].
      apply compareMultiple_Lt in E.
      assert (Hyx : before (h y) (h x)) by (unfold before; lia).
      rewrite Forall_forall in *. intros z Hz.
      apply (Permutation_in _ (insert_perm x rest)) in Hz.
      destruct Hz as [<-|Hz]; auto.
    + constructor; [now constructor|].
      assert (Hxy : before (h x) (h y))
        by (apply compareMultiple_not_Lt; congruence).
      constructor; [exact Hxy|].
      eapply Forall_impl; [|exact Hall].
      intros z Hz. eapply before_trans; eauto.
Qed.

Lemma orderBy_sorted (l : list ref) :
  StronglySorted (fun a b => before (h a) (h b)) (orderBy h l).
Proof.
  induction l as [|x rest IH]; simpl; [constructor|].
  now apply insert_sorted.
Qed.

(** The sort is stable: jobs that tie on both keys keep the order they
    had in the input.  [p] is any class of jobs that tie pairwise. *)
Lemma insert_stable (p : ref -> bool) (x : ref) (l : list ref) :
  (forall a b, p a = true -> p b = true -> compareMultiple (h a) (h b) = Eq) ->
  filter p (insert h x l) = filter p (x :: l).
Proof.
  intros Htie. induction l as [|y rest IH]; [reflexivity|].
  simpl insert. destruct (compareMultiple (h y) (h x)) eqn:E; try reflexivity.
  change (filter p (y :: insert h x rest))
    with (if p y then y :: filter p (insert h x rest)
          else filter p (insert h x rest)).
  rewrite IH. simpl.
  destruct (p y) eqn:Py, (p x) eqn:Px; try reflexivity.
  rewrite (Htie y x Py Px) in E. discriminate.
Qed.

Lemma orderBy_stable (p : ref -> bool) (l : list ref) :
  (forall a b, p a = true -> p b = true -> compareMultiple (h a) (h b) = Eq) ->
  filter p (orderBy h l) = filter p l.
Proof.
  intros Htie. induction l as [|x rest IH]; [reflexivity|].
  simpl orderBy. rewrite insert_stable by exact Htie.
  simpl. now rewrite IH.
Qed.

End Ordering.

(** ** Selection: [findNextJobs] and [getConcurrentJobs] *)

Section Selection.
Import MemoryStorage Queue.

Lemma selectable_spec (j : Job) :
  selectable j = true <-> active j = false /\ failed j = None.
Proof.
  unfold selectable. destruct (active j), (failed j); simpl; intuition congruence.
Qed.

Lemma selectable_within_spec (ub : Z) (j : Job) :
  selectable_within ub j = true <->
  active j = false /\ failed j = None /\ 0 < timeout j < ub.
Proof.
  unfold selectable_within.
  rewrite !andb_true_iff, selectable_spec, !Z.ltb_lt. tauto.
Qed.

Lemma eligible_selectable (ub : option Z) (j : Job) :
  eligible ub j = true -> active j = false /\ failed j = None.
Proof.
  destruct ub; simpl.
  - rewrite selectable_within_spec. tauto.
  - now rewrite selectable_spec.
Qed.

Lemma findNextJobs_In (db : DB) (ub : option Z) (j : ref) :
  In j (findNextJobs db ub) <->
  In j (objects db) /\ eligible ub (heap db j) = true.
Proof.
  unfold findNextJobs. rewrite orderBy_In.
  destruct ub; simpl; now rewrite filter_In.
Qed.


Lemma slice0_prefix {A : Type} (l : list A) (e : Z) :
  exists rest, l = slice0 l e ++ rest.
Proof.
  unfold slice0. eexists. symmetry. apply firstn_skipn.
Qed.

Lemma slice0_incl {A : Type} (l : list A) (e : Z) (x : A) :
  In x (slice0 l e) -> In x l.
Proof.
  destruct (slice0_prefix l e) as [rest E]. intros H.
  rewrite E. apply in_or_app. now left.
Qed.


Variable getConcurrency : string -> Z.

(** The batch is drawn from the candidates of [findNextJobs]. *)
Lemma getConcurrentJobs_incl (lifespan : option Z) (q : Queue.t) (j : ref) :
  In j (snd (getConcurrentJobs getConcurrency lifespan q)) ->
  In j (findNextJobs (jobDB q) (timeoutUpperBound lifespan)).
Proof.
  unfold getConcurrentJobs.
  destruct (findNextJobs (jobDB q) (timeoutUpperBound lifespan))
    as [|nextJob rest] eqn:E; simpl; [tauto|].
  intros H. apply slice0_incl in H.
  change (In j (filter
    (fun j0 => String.eqb (name (heap (jobDB q) j0))
                          (name (heap (jobDB q) nextJob)))
    (nextJob :: rest))) in H.
  apply filter_In in H. tauto.
Qed.

End Selection.

(** C1. For every store and every remaining lifespan (or none), the
    candidates that [findNextJobs] hands to [getConcurrentJobs] are all
    inactive and not failed, they are ordered by priority descending and,
    among equal priorities, by creation time ascending; every job of the
    batch that [getConcurrentJobs] returns is one of these candidates, so it
    was neither active nor failed when it was selected. *)
Theorem findNextJobs_selectable_ordered
    (getConcurrency : string -> Z) (q : Queue.t) (lifespan : option Z) :
  let db := Queue.jobDB q in
  let h := MemoryStorage.heap db in
  let candidates :=
    MemoryStorage.findNextJobs db (Queue.timeoutUpperBound lifespan) in
  Forall (fun j => active (h j) = false /\ failed (h j) = None) candidates
  /\ StronglySorted (fun a b => before (h a) (h b)) candidates
  /\ Forall (fun j => In j candidates
                      /\ active (h j) = false /\ failed (h j) = None)
       (snd (Queue.getConcurrentJobs getConcurrency lifespan q)).
Proof.
  intros db h candidates.
  assert (Hsel : forall j, In j candidates ->
                           active (h j) = false /\ failed (h j) = None).
  { intros j Hj. apply findNextJobs_In in Hj.
    eapply eligible_selectable. apply Hj. }
  split; [now apply Forall_forall|].
  split; [apply orderBy_sorted|].
  apply Forall_forall. intros j Hj.
  apply getConcurrentJobs_incl in Hj. split; [exact Hj|now apply Hsel].
Qed.

(** C5. With a remaining lifespan [L], every candidate and every job of the
    returned batch has a timeout [T] with [0 < T <= L - 500] (so a job with
    timeout [0] is never selected); the candidates are exactly the stored
    jobs that are inactive, not failed and within that bound.  Without a
    lifespan the candidates are exactly the stored jobs that are inactive
    and not failed, whatever their timeout. *)
Theorem lifespan_timeout_bound
    (getConcurrency : string -> Z) (q : Queue.t) (L : Z) :
  let db := Queue.jobDB q in
  let h := MemoryStorage.heap db in
  Forall (fun j => 0 < timeout (h j) <= L - 500)
    (snd (Queue.getConcurrentJobs getConcurrency (Some L) q))
  /\ (forall j,
        In j (MemoryStorage.findNextJobs db (Queue.timeoutUpperBound (Some L)))
        <-> In j (MemoryStorage.objects db) /\ active (h j) = false
            /\ failed (h j) = None /\ 0 < timeout (h j) <= L - 500)
  /\ (forall j,
        In j (MemoryStorage.findNextJobs db (Queue.timeoutUpperBound None))
        <-> In j (MemoryStorage.objects db) /\ active (h j) = false
            /\ failed (h j) = None).
Proof.
  intros db h.
  assert (Hc : forall j,
    In j (MemoryStorage.findNextJobs db (Queue.timeoutUpperBound (Some L)))
    <-> In j (MemoryStorage.objects db) /\ active (h j) = false
        /\ failed (h j) = None /\ 0 < timeout (h j) <= L - 500).
  { intros j. rewrite findNextJobs_In. simpl.
    rewrite selectable_within_spec. fold h. intuition lia. }
  split; [|split; [exact Hc|]].
  - apply Forall_forall. intros j Hj.
    apply getConcurrentJobs_incl in Hj. apply Hc in Hj. tauto.
  - intros j. rewrite findNextJobs_In. simpl.
    rewrite selectable_spec. tauto.
Qed.

(** ** The key/value singleton *)

Section Items.
Import memoryStorage.

Lemma existsb_eqb_In (k : string) (keys : list string) :
  existsb (String.eqb k) keys = true <-> In k keys.
Proof.
  rewrite existsb_exists. split.
  - intros [x [Hx E]]. apply String.eqb_eq in E. now subst.
  - intros H. exists k. split; [exact H|apply String.eqb_refl].
Qed.

Lemma distinct_NoDup (keys : list string) :
  distinct keys = true <-> NoDup keys.
Proof.
  induction keys as [|k rest IH]; simpl.
  - split; [constructor|reflexivity].
  - rewrite andb_true_iff, negb_true_iff, IH. split.
    + intros [Hk Hr]. constructor; [|exact Hr].
      rewrite <- existsb_eqb_In. congruence.
    + intros H. inversion H as [|? ? Hk Hr]; subst. split; [|exact Hr].
      destruct (existsb (String.eqb k) rest) eqn:E; [|reflexivity].
      apply existsb_eqb_In in E. contradiction.
Qed.

Lemma lookup_In (it : Items) (k : string) (v : ref) :
  lookup it k = Some v -> In (k, v) it.
Proof.
  induction it as [|[k' v'] rest IH]; simpl; [discriminate|].
  destruct (String.eqb_spec k' k) as [->|N].
  - intros [= ->]. now left.
  - intros H. right. now apply IH.
Qed.

Lemma lookup_None (it : Items) (k : string) :
  lookup it k = None <-> ~ In k (map fst it).
Proof.
  induction it as [|[k' v'] rest IH]; simpl; [tauto|].
  destruct (String.eqb_spec k' k) as [->|N].
  - split; [discriminate|]. intros H. exfalso. apply H. now left.
  - rewrite IH. tauto.
Qed.

Lemma In_lookup (it : Items) (k : string) (v : ref) :
  NoDup (map fst it) -> In (k, v) it -> lookup it k = Some v.
Proof.
  induction it as [|[k' v'] rest IH]; simpl; [tauto|].
  intros Hnd Hin. inversion Hnd as [|? ? Hk Hr]; subst.
  destruct Hin as [[= -> ->]|Hin].
  - now rewrite String.eqb_refl.
  - destruct (String.eqb_spec k' k) as [->|N]; [|now apply IH].
    exfalso. apply Hk. apply (in_map fst) in Hin. exact Hin.
Qed.

Lemma save_key_same (it : Items) (k : string) (v : ref) :
  lookup it k = Some v -> save_key it k v = it.
Proof.
  induction it as [|[k' v'] rest IH]; simpl; [discriminate|].
  destruct (String.eqb_spec k' k) as [->|N].
  - now intros [= ->].
  - intros H. now rewrite IH.
Qed.

Lemma save_key_In (it : Items) (k : string) (v : ref) (p : string * ref) :
  In p (save_key it k v) -> p = (k, v) \/ In p it.
Proof.
  induction it as [|[k' v'] rest IH]; simpl.
  - intuition congruence.
  - destruct (String.eqb_spec k' k) as [->|N]; simpl.
    + intuition congruence.
    + intros [H|H]; [tauto|]. apply IH in H. tauto.
Qed.

Lemma save_key_lookup_same (it : Items) (k : string) (v : ref) :
  lookup (save_key it k v) k = Some v.
Proof.
  induction it as [|[k' v'] rest IH]; simpl.
  - now rewrite String.eqb_refl.
  - destruct (String.eqb_spec k' k) as [->|N]; simpl.
    + now rewrite String.eqb_refl.
    + destruct (String.eqb_spec k' k); [contradiction|exact IH].
Qed.

(** Assigning to a key that is present keeps the keys and their order;
    assigning to a new key appends it. *)
Lemma save_key_keys (it : Items) (k : string) (v : ref) :
  map fst (save_key it k v) =
  if existsb (String.eqb k) (map fst it) then map fst it
  else map fst it ++ [k].
Proof.
  induction it as [|[k' v'] rest IH]; simpl; [reflexivity|].
  rewrite (String.eqb_sym k k').
  destruct (String.eqb_spec k' k) as [->|N]; simpl; [reflexivity|].
  rewrite IH. now destruct (existsb (String.eqb k) (map fst rest)).
Qed.

Lemma save_key_NoDup (it : Items) (k : string) (v : ref) :
  NoDup (map fst it) -> NoDup (map fst (save_key it k v)).
Proof.
  intros H. rewrite save_key_keys.
  destruct (existsb (String.eqb k) (map fst it)) eqn:E; [exact H|].
  apply NoDup_app; [exact H|repeat constructor; simpl; tauto|].
  intros x Hx [<-|[]].
  apply existsb_eqb_In in Hx. congruence.
Qed.

Lemma delete_key_In (it : Items) (k : string) (p : string * ref) :
  In p (delete_key it k) <-> In p it /\ fst p <> k.
Proof.
  unfold delete_key. rewrite filter_In, negb_true_iff.
  destruct (String.eqb_spec (fst p) k); intuition congruence.
Qed.

Lemma delete_key_keys (it : Items) (k : string) :
  map fst (delete_key it k) =
  filter (fun k' => negb (String.eqb k' k)) (map fst it).
Proof.
  induction it as [|[k' v'] rest IH]; simpl; [reflexivity|].
  destruct (String.eqb k' k); simpl; now rewrite IH.
Qed.

Lemma delete_key_NoDup (it : Items) (k : string) :
  NoDup (map fst it) -> NoDup (map fst (delete_key it k)).
Proof.
  intros H. rewrite delete_key_keys. now apply NoDup_filter.
Qed.

Lemma delete_In (keys : list string) (it : Items) (p : string * ref) :
  In p (delete it keys) <-> In p it /\ ~ In (fst p) keys.
Proof.
  unfold delete. revert it.
  induction keys as [|k rest IH]; intros it; simpl; [tauto|].
  rewrite IH, delete_key_In. intuition congruence.
Qed.

Lemma delete_NoDup (keys : list string) (it : Items) :
  NoDup (map fst it) -> NoDup (map fst (delete it keys)).
Proof.
  unfold delete. revert it.
  induction keys as [|k rest IH]; intros it H; simpl; [exact H|].
  apply IH. now apply delete_key_NoDup.
Qed.

Lemma get_map (it : Items) (l : Items) :
  (forall p, In p l -> lookup it (fst p) = Some (snd p)) ->
  get it (map fst l) = map snd l.
Proof.
  unfold get. induction l as [|p rest IH]; simpl; intros H; [reflexivity|].
  rewrite (H p (or_introl eq_refl)). simpl. f_equal.
  apply IH. intros p' Hp'. apply H. now right.
Qed.

Lemma prefix_append (p s : string) : String.prefix p (p ++ s)%string = true.
Proof.
  induction p as [|c p IH]; simpl.
  - now destruct s.
  - destruct (Ascii.ascii_dec c c); [exact IH|congruence].
Qed.

End Items.

(** ** The job store *)

Section Store.
Import memoryStorage MemoryStorage.

Lemma upd_same (h : Heap) (r : ref) (j : Job) : upd h r j r = j.
Proof. unfold upd. now rewrite Nat.eqb_refl. Qed.

Lemma upd_other (h : Heap) (r r' : ref) (j : Job) :
  r' <> r -> upd h r j r' = h r'.
Proof.
  intros N. unfold upd. destruct (Nat.eqb_spec r' r); [contradiction|reflexivity].
Qed.

(** [forEach] with a field assignment touches the listed objects only. *)
Lemma activate_spec (jobs : list ref) (h : Heap) (r : ref) :
  activate h jobs r =
  if existsb (Nat.eqb r) jobs then set_active true (h r) else h r.
Proof.
  unfold activate. revert h.
  induction jobs as [|j rest IH]; intros h; simpl; [reflexivity|].
  rewrite IH. unfold upd.
  destruct (Nat.eqb_spec r j) as [->|N]; simpl.
  - now destruct (existsb (Nat.eqb j) rest).
  - reflexivity.
Qed.

Lemma unfail_spec (jobs : list ref) (h : Heap) (r : ref) :
  unfail h jobs r =
  if existsb (Nat.eqb r) jobs then set_failed None (h r) else h r.
Proof.
  unfold unfail. revert h.
  induction jobs as [|j rest IH]; intros h; simpl; [reflexivity|].
  rewrite IH. unfold upd.
  destruct (Nat.eqb_spec r j) as [->|N]; simpl.
  - now destruct (existsb (Nat.eqb j) rest).
  - reflexivity.
Qed.

Lemma wf_spec (db : DB) :
  wf db = true <->
  NoDup (map fst (items db))
  /\ forall k r, In (k, r) (items db) ->
                 k = _getKey db r /\ (r < next db)%nat.
Proof.
  unfold wf. rewrite andb_true_iff, distinct_NoDup, forallb_forall.
  split; intros [Hd Hk]; (split; [exact Hd|]).
  - intros k r Hin. specialize (Hk _ Hin). simpl in Hk.
    apply andb_true_iff in Hk. destruct Hk as [E L].
    apply String.eqb_eq in E. apply Nat.ltb_lt in L. now split.
  - intros [k r] Hin. destruct (Hk _ _ Hin) as [E L]. simpl.
    apply andb_true_iff. split; [now apply String.eqb_eq|now apply Nat.ltb_lt].
Qed.

Lemma filter_all {A : Type} (f : A -> bool) (l : list A) :
  (forall x, In x l -> f x = true) -> filter f l = l.
Proof.
  induction l as [|x rest IH]; simpl; intros H; [reflexivity|].
  rewrite (H x (or_introl eq_refl)). f_equal. apply IH. intros y Hy. apply H. now right.
Qed.

(** In a well-formed store every key carries the job prefix, so
    [objects()] lists every stored job, in the order of the keys. *)
Lemma objects_wf (db : DB) : wf db = true -> objects db = map snd (items db).
Proof.
  intros H. apply wf_spec in H. destruct H as [Hd Hk].
  unfold objects, getKeys. rewrite filter_all.
  - apply get_map. intros [k r] Hin. simpl. now apply In_lookup.
  - intros k Hin. apply in_map_iff in Hin. destruct Hin as [[k' r] [<- Hin]].
    destruct (Hk _ _ Hin) as [-> _]. apply prefix_append.
Qed.

Lemma objects_In (db : DB) (r : ref) :
  wf db = true ->
  (In r (objects db) <-> In (_getKey db r, r) (items db)).
Proof.
  intros H. rewrite (objects_wf db H). apply wf_spec in H. destruct H as [Hd Hk].
  rewrite in_map_iff. split.
  - intros [[k r'] [E Hin]]. simpl in E. subst r'.
    destruct (Hk _ _ Hin) as [-> _]. exact Hin.
  - intros Hin. now exists (_getKey db r, r).
Qed.

Lemma objects_lt (db : DB) (r : ref) :
  wf db = true -> In r (objects db) -> (r < next db)%nat.
Proof.
  intros H Hin. apply (objects_In db r H) in Hin.
  apply wf_spec in H. now apply (proj2 H) in Hin.
Qed.

(** A stored job is found under its own key. *)
Lemma stored_lookup (db : DB) (r : ref) :
  wf db = true -> In r (objects db) ->
  lookup (items db) (_getKey db r) = Some r.
Proof.
  intros H Hin. apply (objects_In db r H) in Hin.
  apply wf_spec in H. now apply In_lookup.
Qed.

(** No two stored jobs share an [id]. *)
Lemma objects_NoDup_id (db : DB) :
  wf db = true -> NoDup (map (fun r => id (heap db r)) (objects db)).
Proof.
  intros H. rewrite (objects_wf db H).
  apply wf_spec in H. destruct H as [Hd Hk].
  assert (E : map fst (items db) =
              map (fun r => (JOB_PREFIX ++ id (heap db r))%string)
                  (map snd (items db))).
  { rewrite map_map. apply map_ext_in. intros [k r] Hin. simpl.
    now destruct (Hk _ _ Hin). }
  rewrite E in Hd.
  rewrite <- (map_map (fun r => id (heap db r))
                      (fun s => (JOB_PREFIX ++ s)%string)) in Hd.
  now apply NoDup_map_inv in Hd.
Qed.

Lemma objects_NoDup (db : DB) : wf db = true -> NoDup (objects db).
Proof.
  intros H. apply objects_NoDup_id in H. now apply NoDup_map_inv in H.
Qed.

(** Storing again the jobs that already sit under their keys changes
    nothing. *)
Lemma save_stored (it : Items) (pairs : list (string * ref)) :
  (forall p, In p pairs -> lookup it (fst p) = Some (snd p)) ->
  memoryStorage.save it pairs = it.
Proof.
  unfold memoryStorage.save. induction pairs as [|p rest IH]; simpl; intros H; [reflexivity|].
  rewrite save_key_same by (apply H; now left).
  apply IH. intros p' Hp'. apply H. now right.
Qed.

(** Field writes that keep every [id] keep the store well formed. *)
Lemma wf_with_heap (db : DB) (h : Heap) :
  (forall r, id (h r) = id (heap db r)) ->
  wf db = true -> wf (with_heap db h) = true.
Proof.
  intros Hid H. apply wf_spec in H. apply wf_spec. simpl.
  destruct H as [Hd Hk]. split; [exact Hd|].
  intros k r Hin. destruct (Hk _ _ Hin) as [-> L]. split; [|exact L].
  unfold _getKey. simpl. now rewrite Hid.
Qed.

Lemma wf_create (db : DB) (job : ref) :
  (job < next db)%nat -> wf db = true -> wf (create db job) = true.
Proof.
  intros L H. apply wf_spec in H. apply wf_spec. simpl.
  destruct H as [Hd Hk]. split; [now apply save_key_NoDup|].
  intros k r Hin. apply save_key_In in Hin.
  destruct Hin as [[= -> ->]|Hin]; [now split|now apply Hk].
Qed.

Lemma wf_alloc (db : DB) (j : Job) :
  wf db = true -> wf (fst (alloc db j)) = true.
Proof.
  intros H. apply wf_spec in H. apply wf_spec. simpl.
  destruct H as [Hd Hk]. split; [exact Hd|].
  intros k r Hin. destruct (Hk _ _ Hin) as [-> L]. split; [|lia].
  unfold _getKey. simpl. rewrite upd_other by lia. reflexivity.
Qed.

Lemma wf_delete (db : DB) (job : ref) :
  wf db = true -> wf (delete db job) = true.
Proof.
  intros H. apply wf_spec in H. apply wf_spec. simpl.
  destruct H as [Hd Hk]. split; [now apply delete_key_NoDup|].
  intros k r Hin. apply delete_key_In in Hin. now apply Hk.
Qed.

Lemma wf_delete_keys (db : DB) (keys : list string) :
  wf db = true ->
  wf (with_items db (memoryStorage.delete (items db) keys)) = true.
Proof.
  intros H. apply wf_spec in H. apply wf_spec. simpl.
  destruct H as [Hd Hk]. split; [now apply delete_NoDup|].
  intros k r Hin. apply delete_In in Hin. now apply Hk.
Qed.

Lemma saveAll_stored (db : DB) (jobs : list ref) :
  wf db = true -> (forall j, In j jobs -> In j (objects db)) ->
  saveAll db jobs = db.
Proof.
  intros H Hin. unfold saveAll. rewrite save_stored.
  - now destruct db.
  - intros p Hp. apply in_map_iff in Hp. destruct Hp as [j [<- Hj]]. simpl.
    now apply stored_lookup; [|apply Hin].
Qed.

End Store.

(** ** [createJob] *)

Section CreateJob.
Import MemoryStorage Queue.

Lemma unfail_id (h : Heap) (jobs : list ref) (r : ref) :
  id (unfail h jobs r) = id (h r).
Proof. rewrite unfail_spec. now destruct (existsb (Nat.eqb r) jobs). Qed.

Lemma activate_id (h : Heap) (jobs : list ref) (r : ref) :
  id (activate h jobs r) = id (h r).
Proof. rewrite activate_spec. now destruct (existsb (Nat.eqb r) jobs). Qed.

(** In a well-formed store [resetFailedJobs] and [markActive] only write
    fields: the trailing [saveAll] finds every job under its key. *)
Lemma resetFailedJobs_wf (db : DB) :
  wf db = true ->
  resetFailedJobs db = with_heap db (unfail (heap db) (objects db)).
Proof.
  intros H. unfold resetFailedJobs. apply saveAll_stored.
  - apply wf_with_heap; [apply unfail_id|exact H].
  - now intros j Hj.
Qed.

Lemma markActive_wf (db : DB) (jobs : list ref) :
  wf db = true -> (forall j, In j jobs -> In j (objects db)) ->
  markActive db jobs = with_heap db (activate (heap db) jobs).
Proof.
  intros H Hin. unfold markActive. apply saveAll_stored.
  - apply wf_with_heap; [apply activate_id|exact H].
  - exact Hin.
Qed.

(** What [createJob] does to the store once the arguments are accepted. *)
Lemma createJob_store_ok (name : string) (payload : Payload.t)
    (options : Options.t) (uuid : string) (now : Z) (q : Queue.t) :
  name <> "" ->
  is_negative (Options.timeout options) = false ->
  is_negative (Options.attempts options) = false ->
  createJob_store (Some name) payload options uuid now q =
  (let q0 := resetFailedOnce q in
   let job := next (jobDB q0) in
   let db := fst (alloc (jobDB q0) (newJob name payload options uuid now)) in
   (with_jobDB q0 (create db job), Ok tt)).
Proof.
  intros Hn Ht Ha. unfold createJob_store.
  destruct (String.eqb_spec name ""); [contradiction|].
  now rewrite Ht, Ha.
Qed.

Lemma resetFailedOnce_next (q : Queue.t) :
  next (jobDB (resetFailedOnce q)) = next (jobDB q).
Proof. unfold resetFailedOnce. now destruct (executeFailedJobsOnStart q). Qed.

End CreateJob.

(** C6 (as amended). For every accepted [createJob] call the record that
    is persisted (a fresh object, stored under the key of its id) has
    [priority = options.priority ?? 0], [timeout = options.timeout ?? 25000]
    (an explicit [0] included), [active = false], [created = now],
    [failed = null] and neither [failedAttempts] nor [errors]; its allowed
    attempts are [options.attempts] when that is given and not [0], and [1]
    otherwise. *)
Theorem createJob_persists_record
    (name : string) (payload : Payload.t) (options : Options.t)
    (uuid : string) (now : Z) (q : Queue.t) :
  name <> "" ->
  is_negative (Options.timeout options) = false ->
  is_negative (Options.attempts options) = false ->
  let q' := fst (Queue.createJob_store (Some name) payload options uuid now q) in
  let job := MemoryStorage.next (Queue.jobDB q) in
  let j := MemoryStorage.heap (Queue.jobDB q') job in
  snd (Queue.createJob_store (Some name) payload options uuid now q) = Ok tt
  /\ memoryStorage.lookup (MemoryStorage.items (Queue.jobDB q'))
       (JOB_PREFIX ++ id j)%string = Some job
  /\ priority j = nullish (Options.priority options) 0
  /\ attempts (data j) =
       match Options.attempts options with
       | Some 0 | None => 1
       | Some n => n
       end
  /\ timeout j = nullish (Options.timeout options) 25000
  /\ active j = false
  /\ created j = now
  /\ failed j = None
  /\ failedAttempts (data j) = None
  /\ errors (data j) = None.
Proof.
  intros Hn Ht Ha q' job j.
  subst q' j. rewrite (createJob_store_ok _ _ _ _ _ _ Hn Ht Ha).
  cbn [fst snd]. cbv zeta.
  unfold MemoryStorage.create, MemoryStorage._getKey, MemoryStorage.alloc.
  cbn [fst snd Queue.jobDB Queue.with_jobDB MemoryStorage.heap
       MemoryStorage.items MemoryStorage.with_items MemoryStorage.next].
  rewrite resetFailedOnce_next. fold job. rewrite !upd_same.
  split; [reflexivity|]. split; [apply save_key_lookup_same|].
  simpl. repeat split.
  - unfold num_or, nullish. destruct (Options.priority options) as [n|]; [|reflexivity].
    destruct (Z.eqb_spec n 0); congruence.
  - unfold num_or. destruct (Options.attempts options) as [n|]; [|reflexivity].
    destruct (Z.eqb_spec n 0) as [->|N]; [reflexivity|]. destruct n; congruence.
  - unfold nullish. destruct (Options.timeout options) as [n|]; [|reflexivity].
    simpl in Ht. apply Z.ltb_ge in Ht.
    destruct (Z.leb_spec 0 n); [reflexivity|lia].
Qed.

(** C6, counterexample to the claim as stated
    ([attemptsAllowed = options.attempts ?? 1]): [createJob] accepts
    [attempts: 0] and persists a record that allows one attempt. *)
Lemma createJob_attempts_zero :
  let options := Options.mk None (Some 0) None in
  let q := Queue.queueFactory MemoryStorage.empty false in
  let r := Queue.createJob_store (Some "mail") (Payload.mk None "{}") options
             "c0ffee" 1000 q in
  snd r = Ok tt
  /\ attempts (data (MemoryStorage.heap (Queue.jobDB (fst r)) O)) = 1
  /\ attempts (data (MemoryStorage.heap (Queue.jobDB (fst r)) O))
     <> nullish (Options.attempts options) 1.
Proof.
  cbv zeta. split; [reflexivity|]. split; [reflexivity|]. discriminate.
Qed.

(** C6 at a [createJob] with [timeout: 0] and [attempts: 3]. *)
Lemma createJob_persists_record_witness :
  let options := Options.mk (Some 0) (Some 3) None in
  let q := Queue.queueFactory MemoryStorage.empty true in
  let r := Queue.createJob_store (Some "mail") (Payload.mk None "{}") options
             "c0ffee" 1000 q in
  let j := MemoryStorage.heap (Queue.jobDB (fst r)) O in
  priority j = 0 /\ attempts (data j) = 3 /\ timeout j = 0
  /\ failed j = None.
Proof.
  pose proof (createJob_persists_record "mail" (Payload.mk None "{}")
                (Options.mk (Some 0) (Some 3) None) "c0ffee" 1000
                (Queue.queueFactory MemoryStorage.empty true)
                ltac:(discriminate) eq_refl eq_refl) as H.
  cbv zeta in *. simpl in H. simpl. tauto.
Defined.



(** ** Records are keyed by id *)

Section KeyedById.
Import MemoryStorage Queue.

Lemma save_key_values (it : memoryStorage.Items) (k : string) (v : ref) :
  NoDup (map fst it) -> In k (map fst it) ->
  map snd (memoryStorage.save_key it k v) =
  map (fun p => if String.eqb (fst p) k then v else snd p) it.
Proof.
  induction it as [|[k' v'] rest IH]; simpl; [tauto|].
  intros Hnd Hin. inversion Hnd as [|? ? Hk Hr]; subst.
  destruct (String.eqb_spec k' k) as [->|N]; simpl.
  - f_equal. apply map_ext_in. intros [k0 v0] H0. simpl.
    destruct (String.eqb_spec k0 k) as [->|]; [|reflexivity].
    exfalso. apply Hk. now apply (in_map fst) in H0.
  - f_equal. apply IH; [exact Hr|]. destruct Hin; [contradiction|assumption].
Qed.

Lemma save_key_new (it : memoryStorage.Items) (k : string) (v : ref) :
  ~ In k (map fst it) -> memoryStorage.save_key it k v = it ++ [(k, v)].
Proof.
  induction it as [|[k' v'] rest IH]; simpl; [reflexivity|].
  intros H. destruct (String.eqb_spec k' k) as [->|N]; [tauto|].
  f_equal. apply IH. tauto.
Qed.

(** [create] with the id of a stored job puts the new object in the place
    of the old one. *)
Lemma create_replaces (db : DB) (job old : ref) :
  wf db = true -> (job < next db)%nat ->
  In old (objects db) -> id (heap db old) = id (heap db job) ->
  objects (create db job) =
  map (fun r => if Nat.eqb r old then job else r) (objects db).
Proof.
  intros H L Hold Hid.
  rewrite (objects_wf _ (wf_create db job L H)), (objects_wf db H).
  assert (Hkey : _getKey db old = _getKey db job)
    by (unfold _getKey; now rewrite Hid).
  pose proof (stored_lookup db old H Hold) as Hlk.
  apply wf_spec in H. destruct H as [Hd Hk].
  simpl. rewrite save_key_values; [|exact Hd|].
  - rewrite map_map. apply map_ext_in. intros [k r] Hin. simpl.
    destruct (Hk _ _ Hin) as [-> _].
    destruct (Nat.eqb_spec r old) as [->|N].
    + rewrite Hkey. now rewrite String.eqb_refl.
    + destruct (String.eqb_spec (_getKey db r) (_getKey db job)) as [E|];
        [|reflexivity].
      exfalso. apply N. rewrite <- Hkey in E. rewrite E in Hin.
      apply (In_lookup _ _ _ Hd) in Hin. congruence.
  - rewrite <- Hkey. apply lookup_In in Hlk. now apply (in_map fst) in Hlk.
Qed.

Lemma append_cancel (p a b : string) :
  (p ++ a)%string = (p ++ b)%string -> a = b.
Proof.
  induction p as [|c p IH]; simpl; [tauto|]. intros [= E]. now apply IH.
Qed.

(** [create] with an id that no stored job has appends the new object. *)
Lemma create_appends (db : DB) (job : ref) :
  wf db = true -> (job < next db)%nat ->
  (forall old, In old (objects db) -> id (heap db old) <> id (heap db job)) ->
  objects (create db job) = objects db ++ [job].
Proof.
  intros H L Hnew.
  rewrite (objects_wf _ (wf_create db job L H)), (objects_wf db H).
  simpl. rewrite save_key_new; [now rewrite map_app|].
  intros Hin. apply in_map_iff in Hin. destruct Hin as [[k r] [E Hin]].
  simpl in E. subst k.
  assert (Hr : In r (objects db))
    by (rewrite (objects_wf db H); now apply (in_map snd) in Hin).
  apply wf_spec in H. destruct (proj2 H _ _ Hin) as [E _].
  unfold _getKey in E. apply append_cancel in E.
  apply (Hnew r Hr). congruence.
Qed.

(** The store [createJob] hands to [jobDB.create]: the same items, the old
    objects with their ids, and the new object at the next address. *)
Lemma createJob_alloc (q : Queue.t) (j : Job) :
  wf (jobDB q) = true ->
  let db := fst (alloc (jobDB (resetFailedOnce q)) j) in
  wf db = true
  /\ objects db = objects (jobDB q)
  /\ next db = S (next (jobDB q))
  /\ heap db (next (jobDB q)) = j
  /\ forall r, In r (objects (jobDB q)) ->
                id (heap db r) = id (heap (jobDB q) r).
Proof.
  intros H db.
  assert (H0 : wf (jobDB (resetFailedOnce q)) = true
               /\ items (jobDB (resetFailedOnce q)) = items (jobDB q)
               /\ next (jobDB (resetFailedOnce q)) = next (jobDB q)
               /\ forall r, id (heap (jobDB (resetFailedOnce q)) r)
                            = id (heap (jobDB q) r)).
  { unfold resetFailedOnce. destruct (executeFailedJobsOnStart q); [|tauto].
    cbn [jobDB]. rewrite (resetFailedJobs_wf _ H).
    split; [apply wf_with_heap; [apply unfail_id|exact H]|].
    split; [reflexivity|]. split; [reflexivity|].
    intros r. apply unfail_id. }
  destruct H0 as [Hwf [Hit [Hnx Hid]]].
  split; [now apply wf_alloc|].
  split; [unfold objects; subst db; simpl; now rewrite Hit|].
  split; [subst db; simpl; now rewrite Hnx|].
  split; [subst db; simpl; rewrite Hnx; apply upd_same|].
  intros r Hr. subst db. simpl. rewrite Hnx.
  rewrite upd_other; [apply Hid|].
  apply (objects_lt _ _ H) in Hr. lia.
Qed.

End KeyedById.

(** C10. Job records are keyed by id.  In a well-formed store no two
    records returned by [objects()] share an id; [create] of an object whose
    id a stored job already has puts it in that job's place, so the store
    keeps its size, its order and its well-formedness; and so does every
    accepted [createJob] whose [payload.id] (or generated id) is the id of a
    stored job: the new record overwrites that job. *)
Theorem records_keyed_by_id (q : Queue.t) :
  wf (Queue.jobDB q) = true ->
  let db := Queue.jobDB q in
  let replace (old new : ref) := fun r : ref => if Nat.eqb r old then new else r in
  NoDup (map (fun r => id (MemoryStorage.heap db r)) (MemoryStorage.objects db))
  /\ (forall job old,
        (job < MemoryStorage.next db)%nat ->
        In old (MemoryStorage.objects db) ->
        id (MemoryStorage.heap db old) = id (MemoryStorage.heap db job) ->
        wf (MemoryStorage.create db job) = true
        /\ MemoryStorage.objects (MemoryStorage.create db job)
           = map (replace old job) (MemoryStorage.objects db))
  /\ (forall name payload options uuid now old,
        name <> "" ->
        is_negative (Options.timeout options) = false ->
        is_negative (Options.attempts options) = false ->
        In old (MemoryStorage.objects db) ->
        id (MemoryStorage.heap db old) = str_or (Payload.id payload) uuid ->
        let db' :=
          Queue.jobDB
            (fst (Queue.createJob_store (Some name) payload options uuid now q)) in
        wf db' = true
        /\ MemoryStorage.objects db'
           = map (replace old (MemoryStorage.next db)) (MemoryStorage.objects db)
        /\ NoDup (map (fun r => id (MemoryStorage.heap db' r))
                    (MemoryStorage.objects db'))).
Proof.
  intros H db replace.
  split; [now apply objects_NoDup_id|]. split.
  - intros job old L Hold Hid. split; [now apply wf_create|].
    now apply create_replaces.
  - intros name payload options uuid now old Hn Ht Ha Hold Hid db'.
    subst db'. rewrite (createJob_store_ok _ _ _ _ _ _ Hn Ht Ha).
    cbv zeta. cbn [fst Queue.jobDB Queue.with_jobDB].
    destruct (createJob_alloc q (Queue.newJob name payload options uuid now) H)
      as [Hwf [Hobj [Hnx [Hnew Hids]]]].
    rewrite resetFailedOnce_next. fold db.
    set (db1 := fst (MemoryStorage.alloc (Queue.jobDB (Queue.resetFailedOnce q))
                       (Queue.newJob name payload options uuid now))) in *.
    assert (L : (MemoryStorage.next db < MemoryStorage.next db1)%nat)
      by (rewrite Hnx; subst db; lia).
    assert (Hwf' : wf (MemoryStorage.create db1 (MemoryStorage.next db)) = true)
      by now apply wf_create.
    split; [exact Hwf'|]. split; [|now apply objects_NoDup_id].
    fold db in Hobj, Hnew, Hids.
    rewrite <- Hobj. apply create_replaces; try assumption.
    + now rewrite Hobj.
    + rewrite (Hids old Hold), Hid, Hnew. reflexivity.
Qed.


(** ** [processJob] *)

Section ProcessJob.
Import MemoryStorage Queue.

Lemma bump_failures (j : Job) : bump (failedAttempts (data j)) = failures j + 1.
Proof.
  unfold bump, failures. destruct (failedAttempts (data j)) as [n|]; [|reflexivity].
  destruct (Z.eqb_spec n 0); lia.
Qed.

Lemma map_snd_filter (f : string * ref -> bool) (g : ref -> bool)
    (it : memoryStorage.Items) :
  (forall p, In p it -> f p = g (snd p)) ->
  map snd (filter f it) = filter g (map snd it).
Proof.
  induction it as [|p rest IH]; simpl; intros H; [reflexivity|].
  rewrite <- (H p (or_introl eq_refl)).
  destruct (f p); simpl; rewrite IH; auto.
Qed.

(** [delete(job)] removes the record that has the job's id, and nothing
    else. *)
Lemma objects_delete (db : DB) (job : ref) :
  wf db = true ->
  objects (delete db job) =
  filter (fun r => negb (String.eqb (id (heap db r)) (id (heap db job))))
    (objects db).
Proof.
  intros H. rewrite (objects_wf _ (wf_delete db job H)), (objects_wf db H).
  apply wf_spec in H. destruct H as [_ Hk].
  simpl. unfold memoryStorage.delete_key. apply map_snd_filter.
  intros [k r] Hin. cbn [fst snd]. destruct (Hk _ _ Hin) as [-> _].
  apply (f_equal negb). unfold _getKey.
  destruct (String.eqb_spec (id (heap db r)) (id (heap db job))) as [->|N].
  - apply String.eqb_refl.
  - apply String.eqb_neq. intros E. now apply append_cancel in E.
Qed.

(** The job object after a failed attempt. *)
Lemma assign_failure (j : Job) (message : string) (now : Z) :
  let n := failures j + 1 in
  assign j
    (mkFields
       (Some (mkJobData (attempts (data j)) (Some n)
                (Some (logError (errors (data j)) message))))
       (Some false)
       (if attempts (data j) <=? n then Some now else None))
  = mkJob (id j) (name j) (payload j)
      (mkJobData (attempts (data j)) (Some n)
         (Some (logError (errors (data j)) message)))
      (priority j) false (timeout j) (created j)
      (if attempts (data j) <=? n then Some now else failed j).
Proof.
  intros n. unfold assign. simpl.
  now destruct (attempts (data j) <=? n).
Qed.

(** [processJob] after a rejection, in closed form. *)
Lemma processJob_settle_rejected (job : ref) (message : string) (now : Z)
    (q : Queue.t) :
  let db := jobDB q in
  let j := heap db job in
  let n := failures j + 1 in
  let exhausted := attempts (data j) <=? n in
  let fire cb := mkCall cb (name j) (id j) (payload j) None in
  processJob_settle job (Rejected message) now q =
  Queue.mk
    (mkDB
       (upd (heap db) job
          (mkJob (id j) (name j) (payload j)
             (mkJobData (attempts (data j)) (Some n)
                (Some (logError (errors (data j)) message)))
             (priority j) false (timeout j) (created j)
             (if exhausted then Some now else failed j)))
       (next db)
       (memoryStorage.save_key (items db) (JOB_PREFIX ++ id j)%string job))
    (status q) (executeFailedJobsOnStart q)
    (calls q ++ fire onFailure
       :: (if exhausted then [fire onFailed; fire onComplete] else [])).
Proof.
  intros db j n exhausted fire.
  unfold processJob_settle. fold db. fold j.
  rewrite bump_failures. fold n. cbn [attempts]. fold exhausted.
  unfold merge, save, create, _getKey.
  cbn [jobDB with_jobDB heap items with_items with_heap next].
  rewrite upd_same. fold j.
  pose proof (assign_failure j message now) as Ea. cbv zeta in Ea.
  fold n in Ea. fold exhausted in Ea. rewrite Ea. cbn [id].
  unfold executeJobLifecycleCallback.
  destruct exhausted; cbn [jobDB status executeFailedJobsOnStart calls];
    rewrite <- ?app_assoc; reflexivity.
Qed.

End ProcessJob.

(** C3. When the handler of a job fails with an error, [processJob] stores
    the job back with [failedAttempts] incremented ([1] when it was absent),
    the error message appended to [errors], [active = false] and, when the
    incremented [failedAttempts] has reached [attempts], [failed] set to the
    current time; otherwise [failed] is not written.  The job sits in the
    store under its key, no other object is touched, and the callbacks
    fired are [onStart], then [onFailure], then, only when the attempts are
    used up, [onFailed] and [onComplete] without a result: [onSuccess] is
    not among them. *)
Theorem processJob_failure
    (job : ref) (message : string) (now : Z) (q : Queue.t) :
  let q' := Queue.processJob job (Rejected message) now q in
  let j := MemoryStorage.heap (Queue.jobDB q) job in
  let j' := MemoryStorage.heap (Queue.jobDB q') job in
  let failedAttempts' :=
    match failedAttempts (data j) with
    | Some n => n + 1
    | None => 1
    end in
  let exhausted := attempts (data j) <=? failedAttempts' in
  let fire cb result := mkCall cb (name j) (id j) (payload j) result in
  data j' = mkJobData (attempts (data j)) (Some failedAttempts')
              (Some (match errors (data j) with
                     | Some l => l ++ [message]
                     | None => [message]
                     end))
  /\ active j' = false
  /\ failed j' = (if exhausted then Some now else failed j)
  /\ (id j', name j', payload j', priority j', timeout j', created j')
     = (id j, name j, payload j, priority j, timeout j, created j)
  /\ memoryStorage.lookup (MemoryStorage.items (Queue.jobDB q'))
       (JOB_PREFIX ++ id j)%string = Some job
  /\ (forall r, r <> job ->
        MemoryStorage.heap (Queue.jobDB q') r = MemoryStorage.heap (Queue.jobDB q) r)
  /\ Queue.calls q' =
       Queue.calls q
       ++ [fire onStart None; fire onFailure None]
       ++ (if exhausted then [fire onFailed None; fire onComplete None] else [])
  /\ Queue.status q' = Queue.status q.
Proof.
  intros q' j j' failedAttempts' exhausted fire.
  assert (En : failedAttempts' = failures j + 1).
  { subst failedAttempts'. unfold failures.
    now destruct (failedAttempts (data j)). }
  subst q' j'. unfold Queue.processJob.
  rewrite processJob_settle_rejected. cbv zeta.
  unfold Queue.processJob_begin, Queue.executeJobLifecycleCallback.
  cbn [Queue.jobDB Queue.calls Queue.status Queue.executeFailedJobsOnStart
       MemoryStorage.heap MemoryStorage.items MemoryStorage.next].
  fold j. rewrite <- En. fold exhausted. rewrite upd_same.
  cbn [data active failed id name payload priority timeout created].
  split; [reflexivity|]. split; [reflexivity|]. split; [reflexivity|].
  split; [reflexivity|].
  split; [apply save_key_lookup_same|].
  split; [intros r N; now apply upd_other|].
  split; [|reflexivity].
  rewrite <- app_assoc. reflexivity.
Qed.

(** C8. When the handler of a job succeeds, [processJob] deletes the
    record of the job: its key is gone, [objects()] is what it was without
    the record of that id, and the job is not in it.  No object is written,
    so [failedAttempts], [errors] and [failed] are what they were.  The
    callbacks fired are [onStart], then [onSuccess] and [onComplete], both
    with the result of the handler. *)
Theorem processJob_success
    (job : ref) (result : string) (now : Z) (q : Queue.t) :
  wf (Queue.jobDB q) = true ->
  let q' := Queue.processJob job (Resolved result) now q in
  let h := MemoryStorage.heap (Queue.jobDB q) in
  let fire cb res := mkCall cb (name (h job)) (id (h job)) (payload (h job)) res in
  memoryStorage.lookup (MemoryStorage.items (Queue.jobDB q'))
    (JOB_PREFIX ++ id (h job))%string = None
  /\ MemoryStorage.objects (Queue.jobDB q') =
     filter (fun r => negb (String.eqb (id (h r)) (id (h job))))
       (MemoryStorage.objects (Queue.jobDB q))
  /\ ~ In job (MemoryStorage.objects (Queue.jobDB q'))
  /\ MemoryStorage.heap (Queue.jobDB q') = h
  /\ Queue.calls q' =
       Queue.calls q
       ++ [fire onStart None; fire onSuccess (Some result);
           fire onComplete (Some result)]
  /\ Queue.status q' = Queue.status q.
Proof.
  intros H q' h fire.
  assert (Hobj : MemoryStorage.objects (Queue.jobDB q') =
                 filter (fun r => negb (String.eqb (id (h r)) (id (h job))))
                   (MemoryStorage.objects (Queue.jobDB q)))
    by (apply (objects_delete (Queue.jobDB q) job H)).
  split.
  { apply lookup_None. intros Hin. apply in_map_iff in Hin.
    destruct Hin as [p [E Hin]].
    apply (delete_key_In (MemoryStorage.items (Queue.jobDB q))) in Hin.
    now destruct Hin. }
  split; [exact Hobj|]. split.
  { rewrite Hobj. intros Hin. apply filter_In in Hin.
    rewrite String.eqb_refl in Hin. now destruct Hin. }
  split; [reflexivity|]. split; [|reflexivity].
  subst q'. unfold Queue.processJob, Queue.processJob_settle,
    Queue.processJob_begin, Queue.executeJobLifecycleCallback.
  cbn [Queue.jobDB Queue.with_jobDB Queue.calls]. fold h.
  rewrite <- !app_assoc. reflexivity.
Qed.

(** ** The run loop *)

Section Loop.
Import MemoryStorage Queue.

Variable getConcurrency : string -> Z.

Lemma NoDup_map_inj {A B : Type} (f : A -> B) (l : list A) (x y : A) :
  NoDup (map f l) -> In x l -> In y l -> f x = f y -> x = y.
Proof.
  induction l as [|a rest IH]; simpl; [tauto|].
  intros Hnd Hx Hy E. inversion Hnd as [|? ? Ha Hr]; subst.
  destruct Hx as [->|Hx], Hy as [->|Hy]; auto.
  - exfalso. apply Ha. rewrite E. now apply in_map.
  - exfalso. apply Ha. rewrite <- E. now apply in_map.
Qed.

Lemma sum_filter_drop {A : Type} (f : A -> nat) (p : A -> bool)
    (l : list A) (x : A) :
  In x l -> p x = false ->
  (list_sum (map f (filter p l)) + f x <= list_sum (map f l))%nat.
Proof.
  induction l as [|a rest IH]; simpl; [tauto|].
  intros [->|Hin] Hp.
  - rewrite Hp.
    assert (list_sum (map f (filter p rest)) <= list_sum (map f rest))%nat.
    { clear. induction rest as [|b r IH]; simpl; [lia|].
      destruct (p b); simpl; lia. }
    lia.
  - specialize (IH Hin Hp). destruct (p a); simpl; lia.
Qed.

Lemma sum_decrease {A : Type} (f g : A -> nat) (l : list A) (x : A) :
  (forall a, In a l -> g a <= f a)%nat -> In x l -> (g x < f x)%nat ->
  (list_sum (map g l) < list_sum (map f l))%nat.
Proof.
  induction l as [|a rest IH]; simpl; [tauto|].
  intros Hle [->|Hin] Hlt.
  - assert (list_sum (map g rest) <= list_sum (map f rest))%nat.
    { clear - Hle. induction rest as [|b r IH]; simpl; [lia|].
      assert (g b <= f b)%nat by (apply Hle; right; now left).
      assert (list_sum (map g r) <= list_sum (map f r))%nat.
      { apply IH. intros c [->|Hc]; apply Hle; [now left|right; now right]. }
      lia. }
    lia.
  - assert (g a <= f a)%nat by (apply Hle; now left).
    assert (list_sum (map g rest) < list_sum (map f rest))%nat.
    { apply IH; auto. }
    lia.
Qed.

(** Two stored jobs with the same id are the same object. *)
Lemma stored_same_id (db : DB) (r r' : ref) :
  wf db = true -> In r (objects db) -> In r' (objects db) ->
  id (heap db r) = id (heap db r') -> r = r'.
Proof.
  intros H Hr Hr' E.
  apply (NoDup_map_inj (fun x => id (heap db x)) (objects db)); auto.
  now apply objects_NoDup_id.
Qed.

(** A failed attempt consumes budget. *)
Lemma budget_failure (j : Job) (message : string) (now : Z) :
  failed j = None ->
  let n := failures j + 1 in
  Nat.lt
    (budget (mkJob (id j) (name j) (payload j)
               (mkJobData (attempts (data j)) (Some n)
                  (Some (logError (errors (data j)) message)))
               (priority j) false (timeout j) (created j)
               (if attempts (data j) <=? n then Some now else failed j)))
    (budget j).
Proof.
  intros Hf n. unfold Nat.lt, budget. cbn [failed]. rewrite Hf.
  unfold failures at 1. cbn [data failedAttempts attempts].
  destruct (Z.leb_spec (attempts (data j)) n); lia.
Qed.

(** One settlement: the store stays well formed, the budget shrinks, and
    the other jobs are left alone. *)
Lemma settle_step (job : ref) (outcome : Outcome) (now : Z) (q : Queue.t) :
  wf (jobDB q) = true ->
  In job (objects (jobDB q)) ->
  failed (heap (jobDB q) job) = None ->
  outcome <> Pending ->
  let q' := processJob_settle job outcome now q in
  wf (jobDB q') = true
  /\ (total_budget (jobDB q') < total_budget (jobDB q))%nat
  /\ (forall r, r <> job -> heap (jobDB q') r = heap (jobDB q) r)
  /\ (forall r, r <> job -> In r (objects (jobDB q)) ->
                In r (objects (jobDB q'))).
Proof.
  intros H Hin Hf Ho q'. subst q'.
  destruct outcome as [result|message|]; [| |congruence].
  - (* resolved: the record is deleted *)
    unfold processJob_settle, executeJobLifecycleCallback.
    cbn [jobDB with_jobDB].
    split; [now apply wf_delete|]. split; [|split; [reflexivity|]].
    + unfold total_budget. cbn [items heap delete with_items].
      unfold memoryStorage.delete_key.
      pose proof (sum_filter_drop
        (fun p => budget (heap (jobDB q) (snd p)))
        (fun p => negb (String.eqb (fst p) (_getKey (jobDB q) job)))
        (items (jobDB q)) (_getKey (jobDB q) job, job)) as Hs.
      cbn [fst snd] in Hs. rewrite String.eqb_refl in Hs.
      specialize (Hs (proj1 (objects_In _ _ H) Hin) eq_refl).
      unfold budget at 2 in Hs. rewrite Hf in Hs. lia.
    + intros r N Hr. rewrite (objects_delete _ _ H). apply filter_In.
      split; [exact Hr|]. apply negb_true_iff. apply String.eqb_neq.
      intros E. apply N. now apply (stored_same_id (jobDB q)).
  - (* rejected: the job is written back under its key *)
    rewrite processJob_settle_rejected. cbv zeta. cbn [jobDB].
    pose proof (stored_lookup _ _ H Hin) as Hlk. unfold _getKey in Hlk.
    rewrite (save_key_same _ _ _ Hlk).
    set (j' := mkJob _ _ _ _ _ _ _ _ _).
    change (mkDB (upd (heap (jobDB q)) job j') (next (jobDB q)) (items (jobDB q)))
      with (with_heap (jobDB q) (upd (heap (jobDB q)) job j')).
    assert (Hid : forall r, id (upd (heap (jobDB q)) job j' r)
                            = id (heap (jobDB q) r)).
    { intros r. unfold upd. now destruct (Nat.eqb_spec r job) as [->|]. }
    split; [now apply wf_with_heap|]. split; [|split].
    + unfold total_budget. cbn [items heap with_heap].
      apply sum_decrease with (x := (_getKey (jobDB q) job, job)).
      * intros [k r] _. cbn [snd]. unfold upd.
        destruct (Nat.eqb_spec r job) as [->|]; [|lia].
        apply Nat.lt_le_incl. apply (budget_failure _ message now Hf).
      * now apply objects_In.
      * cbn [snd]. rewrite upd_same. apply (budget_failure _ message now Hf).
    + intros r N. cbn [heap with_heap]. now apply upd_other.
    + intros r _ Hr. exact Hr.
Qed.

(** The jobs of a batch are distinct stored jobs without [failed]; every
    one of them settles, so the budget drops by at least their number. *)
Lemma settleAll_budget (runs : list (ref * Outcome * Z)) (q : Queue.t) :
  wf (jobDB q) = true ->
  NoDup (map (fun run => fst (fst run)) runs) ->
  (forall job outcome now, In (job, outcome, now) runs ->
     In job (objects (jobDB q)) /\ failed (heap (jobDB q) job) = None
     /\ outcome <> Pending) ->
  wf (jobDB (settleAll runs q)) = true
  /\ (total_budget (jobDB (settleAll runs q)) + List.length runs
      <= total_budget (jobDB q))%nat
  /\ status (settleAll runs q) = status q.
Proof.
  revert q. induction runs as [|[[job outcome] now] rest IH]; intros q H Hnd Hall.
  - simpl. split; [exact H|]. split; [lia|reflexivity].
  - simpl in Hnd. inversion Hnd as [|? ? Hjob Hrest]; subst.
    destruct (Hall job outcome now (or_introl eq_refl)) as [Hin [Hf Ho]].
    destruct (settle_step job outcome now q H Hin Hf Ho)
      as [H' [Hb [Hheap Hobj]]].
    cbn [settleAll fold_left]. fold (settleAll rest (processJob_settle job outcome now q)).
    destruct (IH (processJob_settle job outcome now q) H' Hrest) as [Hw [Hs Hst]].
    { intros job' outcome' now' Hin'.
      destruct (Hall job' outcome' now' (or_intror Hin')) as [Hin0 [Hf0 Ho0]].
      assert (N : job' <> job).
      { intros ->. apply Hjob.
        exact (in_map (fun run : ref * Outcome * Z => fst (fst run)) rest
                 (job, outcome', now') Hin'). }
      split; [now apply Hobj|]. split; [|exact Ho0].
      now rewrite Hheap. }
    split; [exact Hw|]. split; [simpl List.length; lia|].
    rewrite Hst. clear. unfold processJob_settle, executeJobLifecycleCallback.
    destruct outcome; try reflexivity.
    cbn [jobDB]. now destruct (_ <=? _).
Qed.

Lemma begin_all (jobs : list ref) (q : Queue.t) :
  jobDB (fold_left (fun q' job => processJob_begin job q') jobs q) = jobDB q
  /\ status (fold_left (fun q' job => processJob_begin job q') jobs q) = status q.
Proof.
  revert q. induction jobs as [|job rest IH]; intros q; simpl; [now split|].
  destruct (IH (processJob_begin job q)) as [-> ->]. now split.
Qed.

Lemma budget_activate (h : Heap) (jobs : list ref) (r : ref) :
  budget (activate h jobs r) = budget (h r).
Proof. rewrite activate_spec. now destruct (existsb (Nat.eqb r) jobs). Qed.

(** What a selection does to a well-formed store. *)
Lemma getConcurrentJobs_effect (lifespan : option Z) (q : Queue.t) :
  wf (jobDB q) = true ->
  let q' := fst (getConcurrentJobs getConcurrency lifespan q) in
  let batch := snd (getConcurrentJobs getConcurrency lifespan q) in
  jobDB q' = with_heap (jobDB q) (activate (heap (jobDB q)) batch)
  /\ status q' = status q
  /\ NoDup batch
  /\ forall job, In job batch ->
       In job (objects (jobDB q)) /\ failed (heap (jobDB q) job) = None.
Proof.
  intros H q' batch.
  assert (Hin : forall job, In job batch ->
            In job (objects (jobDB q)) /\ failed (heap (jobDB q) job) = None).
  { intros job Hj. apply getConcurrentJobs_incl in Hj.
    apply findNextJobs_In in Hj. destruct Hj as [Hs He].
    split; [exact Hs|]. now apply eligible_selectable in He. }
  assert (Hnd : NoDup batch).
  { subst batch. unfold getConcurrentJobs.
    pose proof (objects_NoDup _ H) as Ho.
    assert (Hc : NoDup (findNextJobs (jobDB q) (timeoutUpperBound lifespan))).
    { unfold findNextJobs.
      eapply Permutation_NoDup; [symmetry; apply orderBy_perm|].
      destruct (timeoutUpperBound lifespan); now apply NoDup_filter. }
    destruct (findNextJobs (jobDB q) (timeoutUpperBound lifespan))
      as [|nextJob rest]; [constructor|].
    cbn [snd]. unfold slice0.
    set (related := filter _ (nextJob :: rest)).
    assert (Hr : NoDup related) by now apply NoDup_filter.
    rewrite <- (firstn_skipn
      (Z.to_nat (if getConcurrency (name (heap (jobDB q) nextJob)) <? 0
                 then Z.max (Z.of_nat (List.length related)
                             + getConcurrency (name (heap (jobDB q) nextJob))) 0
                 else getConcurrency (name (heap (jobDB q) nextJob)))) related)
      in Hr.
    now apply NoDup_app_remove_r in Hr. }
  split; [|split; [|split; [exact Hnd|exact Hin]]].
  - subst q' batch. unfold getConcurrentJobs in *.
    destruct (findNextJobs (jobDB q) (timeoutUpperBound lifespan))
      as [|nextJob rest]; [now destruct q as [[? ? ?] ? ? ?]|].
    cbn [fst snd jobDB with_jobDB] in *.
    apply markActive_wf; [exact H|]. intros j Hj. now apply Hin.
  - subst q'. unfold getConcurrentJobs.
    now destruct (findNextJobs (jobDB q) (timeoutUpperBound lifespan)).
Qed.

Section Run.

Variable w : World.
Variable lifespan : option Z.

Hypothesis settle : forall pass j, executeJob w pass j <> Pending.


End Run.

End Loop.


(** ** Failed jobs stay failed *)

Section FailedSticks.
Import MemoryStorage Queue.

Variable getConcurrency : string -> Z.


















End FailedSticks.


(** ** Well-formedness is an invariant of the engine *)

Section WellFormed.
Import MemoryStorage Queue.

Variable getConcurrency : string -> Z.

Lemma settle_wf (job : ref) (outcome : Outcome) (now : Z) (q : Queue.t) :
  wf (jobDB q) = true -> (job < next (jobDB q))%nat ->
  wf (jobDB (processJob_settle job outcome now q)) = true
  /\ next (jobDB (processJob_settle job outcome now q)) = next (jobDB q).
Proof.
  intros H L. destruct outcome as [result|message|].
  - split; [now apply wf_delete|reflexivity].
  - rewrite processJob_settle_rejected. cbv zeta. cbn [jobDB next].
    split; [|reflexivity].
    set (j' := mkJob _ _ _ _ _ _ _ _ _).
    set (db1 := with_heap (jobDB q) (upd (heap (jobDB q)) job j')).
    assert (H1 : wf db1 = true).
    { apply wf_with_heap; [|exact H]. intros r. unfold upd.
      now destruct (Nat.eqb_spec r job) as [->|]. }
    assert (E : create db1 job =
                mkDB (upd (heap (jobDB q)) job j') (next (jobDB q))
                  (memoryStorage.save_key (items (jobDB q))
                     (JOB_PREFIX ++ id (heap (jobDB q) job))%string job)).
    { unfold create, _getKey, db1. cbn [with_items with_heap heap next items].
      now rewrite upd_same. }
    rewrite <- E. now apply wf_create.
  - now split.
Qed.

Lemma settleAll_wf (runs : list (ref * Outcome * Z)) (q : Queue.t) :
  wf (jobDB q) = true ->
  (forall run, In run runs -> (fst (fst run) < next (jobDB q))%nat) ->
  wf (jobDB (settleAll runs q)) = true.
Proof.
  revert q. induction runs as [|[[job outcome] now] rest IH]; intros q H Hall;
    [exact H|].
  destruct (settle_wf job outcome now q H) as [H' Hn];
    [apply (Hall (job, outcome, now)); now left|].
  apply (IH _ H'). intros run Hr. rewrite Hn. apply Hall. now right.
Qed.

Lemma loop_wf (w : World) (lifespan : option Z) (fuel pass : nat)
    (q : Queue.t) :
  wf (jobDB q) = true ->
  wf (jobDB (fst (loop getConcurrency w lifespan fuel pass q))) = true.
Proof.
  revert pass q. induction fuel as [|fuel IH]; intros pass q H; [exact H|].
  cbn [loop].
  set (remaining := match lifespan with
                    | Some l => Some (l - (dateNow w pass - startTime w))
                    | None => None
                    end).
  destruct (getConcurrentJobs_effect getConcurrency remaining q H)
    as [Hdb [_ [_ Hin]]].
  destruct (getConcurrentJobs getConcurrency remaining q) as [q1 batch].
  cbn [fst snd] in *.
  set (q2 := fold_left (fun q' job => processJob_begin job q') batch q1).
  destruct (begin_all batch q1) as [Hdb2 _]. fold q2 in Hdb2.
  assert (Hwf2 : wf (jobDB q2) = true).
  { rewrite Hdb2, Hdb. apply wf_with_heap; [apply activate_id|exact H]. }
  set (runs := dispatch w pass batch q2).
  assert (Hwf3 : wf (jobDB (settleAll runs q2)) = true).
  { apply settleAll_wf; [exact Hwf2|]. intros run Hr. subst runs.
    unfold dispatch in Hr. apply in_map_iff in Hr.
    destruct Hr as [job [<- Hj]]. cbn [fst]. rewrite Hdb2, Hdb. cbn [next].
    apply (objects_lt _ _ H). now apply Hin. }
  destruct (forallb settles runs); [|exact Hwf3].
  set (q4 := if stopCalled w pass then stop (settleAll runs q2)
             else settleAll runs q2).
  assert (Hdb4 : jobDB q4 = jobDB (settleAll runs q2))
    by (subst q4; now destruct (stopCalled w pass)).
  destruct (Status_eqb (status q4) st_active
            && negb (Nat.eqb (List.length batch) 0)).
  - apply IH. now rewrite Hdb4.
  - cbn [fst]. now rewrite Hdb4.
Qed.

Lemma start_wf (w : World) (lifespan : option Z) (fuel : nat) (q : Queue.t) :
  wf (jobDB q) = true ->
  wf (jobDB (fst (start getConcurrency w lifespan fuel q))) = true.
Proof.
  intros H. unfold start. destruct (Status_eqb (status q) st_active); [exact H|].
  pose proof (loop_wf w lifespan fuel O (with_status q st_active) H) as H'.
  destruct (loop getConcurrency w lifespan fuel O (with_status q st_active))
    as [q' [|]]; exact H'.
Qed.

Lemma createJob_store_wf (name : option string) (payload : Payload.t)
    (options : Options.t) (uuid : string) (now : Z) (q : Queue.t) :
  wf (jobDB q) = true ->
  wf (jobDB (fst (createJob_store name payload options uuid now q))) = true.
Proof.
  intros H. unfold createJob_store.
  destruct name as [name|]; [|exact H].
  destruct (String.eqb name ""); [exact H|].
  destruct (is_negative (Options.timeout options)
            || is_negative (Options.attempts options)); [exact H|].
  destruct (createJob_alloc q (newJob name payload options uuid now) H)
    as [Hwf [_ [Hnx _]]].
  unfold alloc in *. cbn [fst jobDB with_jobDB] in *.
  apply wf_create; [|exact Hwf]. rewrite Hnx, resetFailedOnce_next. lia.
Qed.

Lemma run_op_wf (op : Op) (q : Queue.t) :
  wf (jobDB q) = true -> allocated op q = true ->
  wf (jobDB (run_op getConcurrency op q)) = true.
Proof.
  intros H Ha.
  destruct op as [w fuel nm pl options startQueue uuid now | w lifespan fuel |
                  | queueLifespanRemaining | job outcome now | jobName | ];
    cbn [run_op].
  - unfold createJob.
    pose proof (createJob_store_wf nm pl options uuid now q H) as H1.
    destruct (createJob_store nm pl options uuid now q) as [q1 [[]|m]];
      cbn [fst] in *; [|exact H1].
    destruct (startQueue && Status_eqb (status q1) st_inactive);
      cbn [fst]; [now apply start_wf|exact H1].
  - now apply start_wf.
  - exact H.
  - destruct (getConcurrentJobs_effect getConcurrency queueLifespanRemaining q H)
      as [-> _].
    apply wf_with_heap; [apply activate_id|exact H].
  - cbn [allocated] in Ha. apply Nat.ltb_lt in Ha.
    unfold processJob. now apply settle_wf.
  - unfold flushQueue.
    assert (Hall : wf (deleteAll (jobDB q)) = true) by now apply wf_delete_keys.
    destruct jobName as [n|]; [|exact Hall].
    destruct (String.eqb n ""); [exact Hall|].
    cbn [jobDB with_jobDB]. unfold deleteByName.
    destruct (filter _ (objects (jobDB q))); [exact H|].
    now apply wf_delete_keys.
  - cbn [jobDB with_jobDB]. rewrite (resetFailedJobs_wf _ H).
    apply wf_with_heap; [apply unfail_id|exact H].
Qed.

End WellFormed.

(** The stores of the engine are well formed: the store of a new queue
    over the empty storage is, and so is the store after any sequence of
    engine operations in which [processJob] is applied to job objects. *)
Theorem engine_store_wf
    (getConcurrency : string -> Z) (executeFailedJobsOnStart : bool)
    (ops : list Op) :
  let q := Queue.queueFactory MemoryStorage.empty executeFailedJobsOnStart in
  all_allocated getConcurrency ops q = true ->
  wf (Queue.jobDB (run getConcurrency ops q)) = true.
Proof.
  intros q. assert (H : wf (Queue.jobDB q) = true) by reflexivity.
  revert H. generalize q. clear q.
  induction ops as [|op rest IH]; intros q H Ha; [exact H|].
  cbn [all_allocated run] in *. apply andb_true_iff in Ha.
  destruct Ha as [Ha Hrest].
  apply IH; [now apply run_op_wf|exact Hrest].
Qed.

(** The sample operations, run from a new queue. *)
Lemma engine_store_wf_witness :
  wf (Queue.jobDB
        (run sample_concurrency
           (op_createJob sample_world 0 (Some "report")
              (Payload.mk (Some "r1") "{}") (Options.mk None (Some 1) (Some 5))
              false "c0ffee" 1000 :: sample_ops)
           (Queue.queueFactory MemoryStorage.empty false))) = true.
Proof.
  apply (engine_store_wf sample_concurrency false). vm_compute. reflexivity.
Defined.

(** ** The theorems at the sample queue *)




(** C8 at the first [mail] job of the sample queue. *)
Lemma processJob_success_witness :
  ~ In 1%nat
      (MemoryStorage.objects
         (Queue.jobDB (Queue.processJob 1%nat (Resolved "sent") 2000 sample_queue)))
  /\ MemoryStorage.heap
       (Queue.jobDB (Queue.processJob 1%nat (Resolved "sent") 2000 sample_queue))
     = MemoryStorage.heap (Queue.jobDB sample_queue).
Proof.
  destruct (processJob_success 1%nat "sent" 2000 sample_queue eq_refl)
    as [_ [_ [Hgone [Hheap _]]]].
  split; [exact Hgone|exact Hheap].
Defined.

Lemma sample_world_settles (pass : nat) (j : Job) :
  executeJob sample_world pass j <> Pending.
Proof.
  unfold sample_world, executeJob. now destruct (String.eqb (name j) "mail").
Qed.


(** C10 at the sample queue: a new job with the id of the second [mail]
    job takes its place. *)
Lemma records_keyed_by_id_witness :
  MemoryStorage.objects
    (Queue.jobDB
       (fst (Queue.createJob_store (Some "report") (Payload.mk (Some "m2") "{}")
               (Options.mk None None None) "c0ffee" 3000 sample_queue)))
  = [0%nat; 1%nat; 4%nat; 3%nat].
Proof.
  destruct (records_keyed_by_id sample_queue eq_refl) as [_ [_ H]].
  destruct (H "report" (Payload.mk (Some "m2") "{}") (Options.mk None None None)
              "c0ffee" 3000 2%nat ltac:(discriminate) eq_refl eq_refl
              ltac:(vm_compute; tauto) eq_refl) as [_ [Hobj _]].
  exact Hobj.
Defined.

(** A [createJob] whose [payload.id] is the id of a stored job marked
    failed stores a new job object under that id, with [failed = null]; the
    old object keeps its [failed] time and is no longer in the store. *)
Lemma createJob_replaces_failed_record :
  let q' :=
    fst (Queue.createJob_store (Some "report") (Payload.mk (Some "r1") "{}")
           (Options.mk None None None) "c0ffee" 3000 sample_failed) in
  let h := MemoryStorage.heap (Queue.jobDB sample_failed) in
  let h' := MemoryStorage.heap (Queue.jobDB q') in
  MemoryStorage.objects (Queue.jobDB sample_failed) = [0; 1; 2; 3]%nat
  /\ id (h O) = "r1" /\ failed (h O) = Some 2000
  /\ MemoryStorage.objects (Queue.jobDB q') = [4; 1; 2; 3]%nat
  /\ id (h' 4%nat) = "r1" /\ failed (h' 4%nat) = None
  /\ failed (h' O) = Some 2000.
Proof. cbv zeta. repeat split. Qed.

(** * Further properties of the storage and of the queue *)

(** ** [memoryStorage]: keys and values *)

Section KeyValue.
Import memoryStorage.




End KeyValue.




(** ** The job store: deleting, resetting, storing again *)

Section JobStore.
Import MemoryStorage Queue.

Lemma filter_filter {A : Type} (f g : A -> bool) (l : list A) :
  filter f (filter g l) = filter (fun x => g x && f x) l.
Proof.
  induction l as [|x rest IH]; simpl; [reflexivity|].
  destruct (g x); simpl; [|exact IH]. destruct (f x); now rewrite IH.
Qed.

Lemma delete_filter (keys : list string) (it : memoryStorage.Items) :
  memoryStorage.delete it keys =
  filter (fun p => negb (existsb (String.eqb (fst p)) keys)) it.
Proof.
  unfold memoryStorage.delete. revert it.
  induction keys as [|k rest IH]; intros it; simpl.
  - symmetry. now apply filter_all.
  - rewrite IH. unfold memoryStorage.delete_key. rewrite filter_filter.
    apply filter_ext. intros p. rewrite negb_orb. reflexivity.
Qed.

(** [delete(jobs)] removes the records that have the id of one of the
    jobs. *)
Lemma objects_deleteMany (db : DB) (jobs : list ref) :
  wf db = true ->
  objects (deleteMany db jobs) =
  filter (fun r => negb (existsb
                           (fun j => String.eqb (id (heap db r)) (id (heap db j)))
                           jobs))
    (objects db).
Proof.
  intros H. unfold deleteMany.
  rewrite (objects_wf _ (wf_delete_keys db (map (_getKey db) jobs) H)),
    (objects_wf db H).
  apply wf_spec in H. destruct H as [_ Hk].
  cbn [items with_items]. rewrite delete_filter.
  apply map_snd_filter.
  intros [k r] Hin. cbn [fst snd]. destruct (Hk _ _ Hin) as [-> _].
  apply (f_equal negb).
  induction jobs as [|j rest IH]; cbn [existsb map]; [reflexivity|].
  rewrite IH. apply (f_equal (fun b => b || _)). unfold _getKey.
  destruct (String.eqb_spec (id (heap db r)) (id (heap db j))) as [->|N].
  - apply String.eqb_refl.
  - apply String.eqb_neq. intros E. now apply append_cancel in E.
Qed.

Lemma objects_deleteByName (db : DB) (jobName : string) :
  wf db = true ->
  objects (deleteByName db jobName) =
  filter (fun r => negb (String.eqb (name (heap db r)) jobName)) (objects db).
Proof.
  intros H. unfold deleteByName.
  set (jobs := filter (fun j => String.eqb (name (heap db j)) jobName)
                 (objects db)).
  assert (E : objects (deleteMany db jobs) =
              filter (fun r => negb (String.eqb (name (heap db r)) jobName))
                (objects db)).
  { rewrite (objects_deleteMany _ _ H). apply filter_ext_in.
    intros r Hr. apply (f_equal negb).
    destruct (String.eqb_spec (name (heap db r)) jobName) as [En|Nn].
    - apply existsb_exists. exists r. split; [|apply String.eqb_refl].
      subst jobs. apply filter_In. split; [exact Hr|].
      now apply String.eqb_eq.
    - destruct (existsb _ jobs) eqn:Ex; [|reflexivity].
      apply existsb_exists in Ex. destruct Ex as [j [Hj Eid]].
      subst jobs. apply filter_In in Hj. destruct Hj as [Hj En].
      apply String.eqb_eq in Eid, En.
      assert (r = j) by now apply (stored_same_id db).
      subst j. contradiction. }
  destruct jobs as [|j rest] eqn:Ej; [|exact E].
  rewrite <- E. rewrite (objects_deleteMany _ _ H). simpl.
  symmetry. now apply filter_all.
Qed.

(** [deleteAll] removes every key that has the job prefix. *)
Lemma deleteAll_items (db : DB) :
  items (deleteAll db) =
  filter (fun p => negb (String.prefix JOB_PREFIX (fst p))) (items db).
Proof.
  cbn [deleteAll items with_items]. rewrite delete_filter.
  apply filter_ext_in. intros [k r] Hin. cbn [fst].
  apply (f_equal negb). unfold memoryStorage.getKeys.
  destruct (String.prefix JOB_PREFIX k) eqn:Ep.
  - apply existsb_exists. exists k. split; [|apply String.eqb_refl].
    apply filter_In. split; [|exact Ep]. now apply (in_map fst) in Hin.
  - destruct (existsb _ _) eqn:Ex; [|reflexivity].
    apply existsb_exists in Ex. destruct Ex as [k' [Hk' E]].
    apply String.eqb_eq in E. subst k'.
    apply filter_In in Hk'. destruct Hk' as [_ Hp]. congruence.
Qed.

Lemma objects_deleteAll (db : DB) : objects (deleteAll db) = [].
Proof.
  unfold objects. rewrite deleteAll_items. unfold memoryStorage.getKeys.
  assert (E : filter (String.prefix JOB_PREFIX)
                (map fst (filter (fun p => negb (String.prefix JOB_PREFIX (fst p)))
                            (items db))) = []).
  { induction (items db) as [|[k r] rest IH]; simpl; [reflexivity|].
    destruct (String.prefix JOB_PREFIX k) eqn:Ep; simpl; [exact IH|].
    now rewrite Ep. }
  now rewrite E.
Qed.

Lemma lookup_filter_keys (f : string -> bool) (it : memoryStorage.Items)
    (k : string) :
  f k = true ->
  memoryStorage.lookup (filter (fun p => f (fst p)) it) k
  = memoryStorage.lookup it k.
Proof.
  intros Hf. induction it as [|[k0 v0] rest IH]; simpl; [reflexivity|].
  destruct (f k0) eqn:E0; simpl.
  - now rewrite IH.
  - destruct (String.eqb_spec k0 k); [congruence|exact IH].
Qed.

End JobStore.

(** [flushQueue(name)] with a non-empty name removes from a well-formed
    store exactly the jobs of that name: [getJobs()] keeps the other jobs, in
    their order, and no job object is written. *)
Theorem flushQueue_by_name (jobName : string) (q : Queue.t) :
  wf (Queue.jobDB q) = true ->
  jobName <> "" ->
  let q' := Queue.flushQueue (Some jobName) q in
  Queue.getJobs q' =
    filter (fun r => negb (String.eqb
                             (name (MemoryStorage.heap (Queue.jobDB q) r))
                             jobName))
      (Queue.getJobs q)
  /\ MemoryStorage.heap (Queue.jobDB q') = MemoryStorage.heap (Queue.jobDB q)
  /\ wf (Queue.jobDB q') = true
  /\ Queue.status q' = Queue.status q.
Proof.
  intros H Hn q'. subst q'. unfold Queue.flushQueue, Queue.getJobs.
  destruct (String.eqb_spec jobName ""); [contradiction|].
  cbn [Queue.jobDB Queue.with_jobDB Queue.status].
  split; [now apply objects_deleteByName|].
  unfold MemoryStorage.deleteByName.
  destruct (filter _ (MemoryStorage.objects (Queue.jobDB q)));
    repeat split; try assumption.
  now apply wf_delete_keys.
Qed.

(** [flushQueue()] without a name, and [flushQueue('')] as well, removes
    every job: [getJobs()] is empty afterwards.  Keys of the storage that do
    not carry the job prefix keep their values, and no job object is
    written. *)
Theorem flushQueue_all (q : Queue.t) :
  let q' := Queue.flushQueue None q in
  Queue.flushQueue (Some "") q = q'
  /\ Queue.getJobs q' = []
  /\ (forall key,
        String.prefix JOB_PREFIX key = false ->
        memoryStorage.get_key (MemoryStorage.items (Queue.jobDB q')) key
        = memoryStorage.get_key (MemoryStorage.items (Queue.jobDB q)) key)
  /\ MemoryStorage.heap (Queue.jobDB q') = MemoryStorage.heap (Queue.jobDB q).
Proof.
  intros q'. subst q'. unfold Queue.flushQueue, Queue.getJobs.
  cbn [Queue.jobDB Queue.with_jobDB String.eqb].
  split; [reflexivity|]. split; [apply objects_deleteAll|].
  split; [|reflexivity].
  intros key Hp. unfold memoryStorage.get_key. rewrite deleteAll_items.
  rewrite (lookup_filter_keys (fun k => negb (String.prefix JOB_PREFIX k)));
    [reflexivity|now rewrite Hp].
Qed.

(** [createJob] with an id that no stored job has adds the new job at the
    end of [getJobs()]; the jobs already stored stay in place. *)
Theorem createJob_appends
    (name : string) (payload : Payload.t) (options : Options.t)
    (uuid : string) (now : Z) (q : Queue.t) :
  wf (Queue.jobDB q) = true ->
  name <> "" ->
  is_negative (Options.timeout options) = false ->
  is_negative (Options.attempts options) = false ->
  (forall r, In r (Queue.getJobs q) ->
             id (MemoryStorage.heap (Queue.jobDB q) r)
             <> str_or (Payload.id payload) uuid) ->
  let q' := fst (Queue.createJob_store (Some name) payload options uuid now q) in
  Queue.getJobs q' = Queue.getJobs q ++ [MemoryStorage.next (Queue.jobDB q)]
  /\ wf (Queue.jobDB q') = true.
Proof.
  intros H Hn Ht Ha Hfresh q'. subst q'. unfold Queue.getJobs in *.
  rewrite (createJob_store_ok _ _ _ _ _ _ Hn Ht Ha).
  cbv zeta. cbn [fst Queue.jobDB Queue.with_jobDB].
  destruct (createJob_alloc q (Queue.newJob name payload options uuid now) H)
    as [Hwf [Hobj [Hnx [Hnew Hids]]]].
  rewrite resetFailedOnce_next.
  set (db1 := fst (MemoryStorage.alloc (Queue.jobDB (Queue.resetFailedOnce q))
                     (Queue.newJob name payload options uuid now))) in *.
  assert (L : (MemoryStorage.next (Queue.jobDB q) < MemoryStorage.next db1)%nat)
    by (rewrite Hnx; lia).
  split; [|now apply wf_create].
  rewrite <- Hobj. apply create_appends; try assumption.
  intros old Hold. rewrite Hobj in Hold.
  rewrite (Hids old Hold), Hnew. now apply Hfresh.
Qed.

(** In a well-formed store [resetFailedJobs] sets [failed] to [null] on
    every stored job and writes nothing else: the stored jobs, their order
    and every other field stay, and objects that are not stored are not
    touched.  Afterwards every stored job that is not active is a candidate
    of [findNextJobs] (without a timeout bound). *)
Theorem resetFailedJobs_effect (db : MemoryStorage.DB) :
  wf db = true ->
  let db' := MemoryStorage.resetFailedJobs db in
  MemoryStorage.objects db' = MemoryStorage.objects db
  /\ wf db' = true
  /\ (forall r, In r (MemoryStorage.objects db) ->
        MemoryStorage.heap db' r = set_failed None (MemoryStorage.heap db r))
  /\ (forall r, ~ In r (MemoryStorage.objects db) ->
        MemoryStorage.heap db' r = MemoryStorage.heap db r)
  /\ (forall r, In r (MemoryStorage.findNextJobs db' None) <->
        In r (MemoryStorage.objects db)
        /\ active (MemoryStorage.heap db r) = false).
Proof.
  intros H db'. subst db'. rewrite (resetFailedJobs_wf db H).
  assert (Hh : forall r,
            MemoryStorage.heap
              (MemoryStorage.with_heap db
                 (MemoryStorage.unfail (MemoryStorage.heap db)
                    (MemoryStorage.objects db))) r =
            if existsb (Nat.eqb r) (MemoryStorage.objects db)
            then set_failed None (MemoryStorage.heap db r)
            else MemoryStorage.heap db r)
    by (intros r; apply unfail_spec).
  assert (Hex : forall r, existsb (Nat.eqb r) (MemoryStorage.objects db) = true
                          <-> In r (MemoryStorage.objects db)).
  { intros r. rewrite existsb_exists. split.
    - intros [x [Hx E]]. apply Nat.eqb_eq in E. now subst.
    - intros Hr. exists r. split; [exact Hr|apply Nat.eqb_refl]. }
  split; [reflexivity|].
  split; [apply wf_with_heap; [apply unfail_id|exact H]|].
  split; [|split].
  - intros r Hr. rewrite Hh. apply Hex in Hr. now rewrite Hr.
  - intros r Hr. rewrite Hh.
    destruct (existsb (Nat.eqb r) (MemoryStorage.objects db)) eqn:E;
      [|reflexivity].
    apply Hex in E. contradiction.
  - intros r. rewrite findNextJobs_In. cbn [eligible].
    rewrite selectable_spec.
    change (MemoryStorage.objects
              (MemoryStorage.with_heap db
                 (MemoryStorage.unfail (MemoryStorage.heap db)
                    (MemoryStorage.objects db))))
      with (MemoryStorage.objects db).
    split.
    + intros [Hr [Hact _]]. split; [exact Hr|].
      rewrite Hh in Hact. apply Hex in Hr. now rewrite Hr in Hact.
    + intros [Hr Hact]. split; [exact Hr|].
      rewrite Hh. apply Hex in Hr. rewrite Hr. now split.
Qed.


(** A failed attempt stores the job again when its record is gone (for
    example through [flushQueue] while the handler was running): the job
    comes back at the end of [getJobs()].  A successful attempt leaves the
    stored jobs as they are in that case. *)
Theorem processJob_stores_deleted_job
    (job : ref) (message result : string) (now : Z) (q : Queue.t) :
  wf (Queue.jobDB q) = true ->
  (job < MemoryStorage.next (Queue.jobDB q))%nat ->
  (forall r, In r (Queue.getJobs q) ->
             id (MemoryStorage.heap (Queue.jobDB q) r)
             <> id (MemoryStorage.heap (Queue.jobDB q) job)) ->
  Queue.getJobs (Queue.processJob job (Rejected message) now q)
  = Queue.getJobs q ++ [job]
  /\ Queue.getJobs (Queue.processJob job (Resolved result) now q)
     = Queue.getJobs q.
Proof.
  intros H L Hfresh. unfold Queue.getJobs in *. split.
  - unfold Queue.processJob. rewrite processJob_settle_rejected. cbv zeta.
    cbn [Queue.jobDB Queue.processJob_begin Queue.executeJobLifecycleCallback].
    set (j' := mkJob _ _ _ _ _ _ _ _ _).
    set (db := Queue.jobDB q) in *.
    set (db1 := MemoryStorage.with_heap db (upd (MemoryStorage.heap db) job j')).
    assert (Hid : forall r, id (upd (MemoryStorage.heap db) job j' r)
                            = id (MemoryStorage.heap db r)).
    { intros r. unfold upd. now destruct (Nat.eqb_spec r job) as [->|]. }
    assert (H1 : wf db1 = true) by (apply wf_with_heap; assumption).
    assert (E : MemoryStorage.create db1 job =
                MemoryStorage.mkDB (upd (MemoryStorage.heap db) job j')
                  (MemoryStorage.next db)
                  (memoryStorage.save_key (MemoryStorage.items db)
                     (JOB_PREFIX ++ id (MemoryStorage.heap db job))%string job)).
    { unfold MemoryStorage.create, MemoryStorage._getKey, db1.
      cbn [MemoryStorage.with_items MemoryStorage.with_heap MemoryStorage.heap
           MemoryStorage.next MemoryStorage.items].
      now rewrite upd_same. }
    rewrite <- E.
    change (MemoryStorage.objects db) with (MemoryStorage.objects db1).
    apply create_appends; [exact H1|exact L|].
    intros old Hold. cbn [db1 MemoryStorage.with_heap MemoryStorage.heap].
    rewrite !Hid. now apply Hfresh.
  - unfold Queue.processJob, Queue.processJob_settle,
      Queue.executeJobLifecycleCallback, Queue.processJob_begin.
    cbn [Queue.jobDB Queue.with_jobDB].
    rewrite (objects_delete _ _ H). apply filter_all.
    intros r Hr. apply negb_true_iff, String.eqb_neq. now apply Hfresh.
Qed.

(** ** Selection, again *)

(** [findNextJobs] returns every eligible stored job exactly once (it is a
    rearrangement of the filtered [objects()]), and jobs that tie on
    [priority] and [created] come out in the order [objects()] lists
    them. *)
Theorem findNextJobs_rearranges
    (db : MemoryStorage.DB) (timeoutUpperBound : option Z) (j0 : Job) :
  let h := MemoryStorage.heap db in
  let eligible_objects :=
    filter (fun r => eligible timeoutUpperBound (h r))
      (MemoryStorage.objects db) in
  let tie r := (priority (h r) =? priority j0) && (created (h r) =? created j0) in
  Permutation (MemoryStorage.findNextJobs db timeoutUpperBound) eligible_objects
  /\ filter tie (MemoryStorage.findNextJobs db timeoutUpperBound)
     = filter tie eligible_objects.
Proof.
  intros h eligible_objects tie.
  assert (E : MemoryStorage.findNextJobs db timeoutUpperBound
              = MemoryStorage.orderBy h eligible_objects)
    by (unfold MemoryStorage.findNextJobs; now destruct timeoutUpperBound).
  rewrite E. split; [apply orderBy_perm|].
  apply orderBy_stable. intros a b Ha Hb. subst tie. cbv beta in Ha, Hb.
  apply andb_true_iff in Ha, Hb.
  destruct Ha as [Pa Ca], Hb as [Pb Cb].
  apply Z.eqb_eq in Pa, Ca, Pb, Cb.
  unfold MemoryStorage.compareMultiple.
  rewrite Pa, Pb, Ca, Cb, !Z.compare_refl. reflexivity.
Qed.

(** Two selections in a row never return the same job: the jobs of the
    first batch are distinct, they are marked active in the store, and the
    second batch, whatever its lifespan, holds none of them. *)
Theorem consecutive_batches_disjoint
    (getConcurrency : string -> Z) (lifespan1 lifespan2 : option Z)
    (q : Queue.t) :
  wf (Queue.jobDB q) = true ->
  let first := Queue.getConcurrentJobs getConcurrency lifespan1 q in
  let second := Queue.getConcurrentJobs getConcurrency lifespan2 (fst first) in
  NoDup (snd first)
  /\ Forall (fun r => active (MemoryStorage.heap (Queue.jobDB (fst first)) r)
                      = true
                      /\ ~ In r (snd second))
       (snd first).
Proof.
  intros H first second.
  destruct (getConcurrentJobs_effect getConcurrency lifespan1 q H)
    as [Hdb [_ [Hnd _]]].
  fold first in Hdb, Hnd. split; [exact Hnd|].
  apply Forall_forall. intros r Hr.
  assert (Hact : active (MemoryStorage.heap (Queue.jobDB (fst first)) r) = true).
  { rewrite Hdb. cbn [MemoryStorage.heap MemoryStorage.with_heap].
    rewrite activate_spec.
    assert (Hex : existsb (Nat.eqb r) (snd first) = true).
    { apply existsb_exists. exists r. split; [exact Hr|apply Nat.eqb_refl]. }
    now rewrite Hex. }
  split; [exact Hact|].
  intros Hin. subst second. apply getConcurrentJobs_incl in Hin.
  apply findNextJobs_In in Hin. destruct Hin as [_ He].
  apply eligible_selectable in He. destruct He as [He _]. congruence.
Qed.

(** With a remaining lifespan of 500 ms or less no job is selected,
    whatever the store holds, and the queue is left as it was; so a [start]
    whose lifespan has 500 ms or less left at its first pass runs no job,
    fires no callback and ends inactive. *)
Theorem short_lifespan_runs_nothing
    (getConcurrency : string -> Z) (w : World) (lifespan : Z) (fuel : nat)
    (q : Queue.t) :
  lifespan - (dateNow w O - startTime w) <= 500 ->
  Queue.status q = st_inactive ->
  (forall remaining,
     remaining <= 500 ->
     Queue.getConcurrentJobs getConcurrency (Some remaining) q = (q, []))
  /\ Queue.start getConcurrency w (Some lifespan) (S fuel) q = (q, Finished).
Proof.
  intros Hl Hs.
  assert (Hnone : forall (q0 : Queue.t) remaining,
            remaining <= 500 ->
            Queue.getConcurrentJobs getConcurrency (Some remaining) q0
            = (q0, [])).
  { intros q0 remaining Hr. unfold Queue.getConcurrentJobs.
    assert (E : MemoryStorage.findNextJobs (Queue.jobDB q0)
                  (Queue.timeoutUpperBound (Some remaining)) = []).
    { unfold MemoryStorage.findNextJobs. cbn [Queue.timeoutUpperBound].
      assert (Ef : filter
                (fun j => MemoryStorage.selectable_within (remaining - 499)
                            (MemoryStorage.heap (Queue.jobDB q0) j))
                (MemoryStorage.objects (Queue.jobDB q0)) = []).
      { induction (MemoryStorage.objects (Queue.jobDB q0)) as [|r rest IH];
          [reflexivity|].
        simpl. rewrite IH.
        destruct (MemoryStorage.selectable_within _ _) eqn:E; [|reflexivity].
        apply selectable_within_spec in E. lia. }
      now rewrite Ef. }
    now rewrite E. }
  split; [intros remaining; apply Hnone|].
  unfold Queue.start. rewrite Hs. cbn [Status_eqb Queue.loop].
  rewrite (Hnone _ _ Hl). cbn [fold_left].
  unfold Queue.dispatch, Queue.settleAll. cbn [map fold_left forallb].
  destruct q as [db st flag calls]. cbn [Queue.status] in Hs. subst st.
  destruct (stopCalled w O); reflexivity.
Qed.

(** ** Retries *)

Section Retries.
Import MemoryStorage Queue.

Lemma processJob_rejected_heap (job : ref) (message : string) (now : Z)
    (q : Queue.t) :
  let j := heap (jobDB q) job in
  heap (jobDB (processJob job (Rejected message) now q)) job =
  mkJob (id j) (name j) (payload j)
    (mkJobData (attempts (data j)) (Some (failures j + 1))
       (Some (logError (errors (data j)) message)))
    (priority j) false (timeout j) (created j)
    (if attempts (data j) <=? failures j + 1 then Some now else failed j).
Proof.
  intros j. unfold processJob. rewrite processJob_settle_rejected. cbv zeta.
  cbn [jobDB processJob_begin executeJobLifecycleCallback heap].
  apply upd_same.
Qed.

Lemma last_cons {A : Type} (l : list A) (a d : A) :
  last (a :: l) d = last l a.
Proof.
  revert a d. induction l as [|b rest IH]; intros a d; [reflexivity|].
  change (last (a :: b :: rest) d) with (last (b :: rest) d).
  now rewrite !IH.
Qed.

End Retries.

(** Failed attempts add up.  After [k >= 1] failed attempts of a job, one
    after the other, its [failedAttempts] has grown by [k] (counting from
    [0] when it was absent), [errors] holds the messages in the order of the
    attempts after those it held, the job is inactive, and [failed] is the
    time of the last attempt when [failedAttempts] has reached [attempts],
    and is not written otherwise. *)
Theorem failed_attempts_add_up
    (job : ref) (first : string * Z) (others : list (string * Z))
    (q : Queue.t) :
  let j := MemoryStorage.heap (Queue.jobDB q) job in
  let j' := MemoryStorage.heap
              (Queue.jobDB (failAll job (first :: others) q)) job in
  let k := Z.of_nat (List.length (first :: others)) in
  data j' =
    mkJobData (attempts (data j)) (Some (failures j + k))
      (Some (match errors (data j) with Some l => l | None => [] end
             ++ map fst (first :: others)))
  /\ active j' = false
  /\ failed j' =
     (if attempts (data j) <=? failures j + k
      then Some (snd (last others first))
      else failed j).
Proof.
  revert first q. induction others as [|second rest IH]; intros first q.
  - cbv zeta. unfold failAll. cbn [fold_left List.length last map].
    rewrite processJob_rejected_heap. cbv zeta.
    cbn [data active failed]. unfold Queue.logError.
    split; [|split; reflexivity].
    now destruct (errors (data (MemoryStorage.heap (Queue.jobDB q) job))).
  - specialize (IH second
      (Queue.processJob job (Rejected (fst first)) (snd first) q)).
    cbv zeta in IH |- *.
    change (failAll job (first :: second :: rest) q)
      with (failAll job (second :: rest)
              (Queue.processJob job (Rejected (fst first)) (snd first) q)).
    set (j := MemoryStorage.heap (Queue.jobDB q) job) in *.
    set (j1 := MemoryStorage.heap
                 (Queue.jobDB
                    (Queue.processJob job (Rejected (fst first)) (snd first) q))
                 job) in *.
    pose proof (processJob_rejected_heap job (fst first) (snd first) q) as E1.
    cbv zeta in E1. fold j j1 in E1.
    assert (Ea : attempts (data j1) = attempts (data j)) by now rewrite E1.
    assert (Ef : failures j1 = failures j + 1) by now rewrite E1.
    assert (Ee : errors (data j1)
                 = Some (Queue.logError (errors (data j)) (fst first)))
      by now rewrite E1.
    assert (Ed : failed j1 = if attempts (data j) <=? failures j + 1
                             then Some (snd first) else failed j)
      by now rewrite E1.
    rewrite Ea, Ef, Ee, Ed in IH. clear E1.
    destruct IH as [Hd [Ha Hf]].
    assert (Ek : Z.of_nat (List.length (first :: second :: rest))
                 = 1 + Z.of_nat (List.length (second :: rest))).
    { cbn [List.length]. lia. }
    rewrite Ek.
    replace (failures j + (1 + Z.of_nat (List.length (second :: rest))))
      with (failures j + 1 + Z.of_nat (List.length (second :: rest))) by lia.
    split; [|split; [exact Ha|]].
    + rewrite Hd. f_equal. f_equal. unfold Queue.logError.
      cbn [map]. destruct (errors (data j)); cbn [app];
        rewrite <- ?app_assoc; reflexivity.
    + rewrite Hf.
      rewrite last_cons.
      destruct (Z.leb_spec (attempts (data j))
                  (failures j + 1 + Z.of_nat (List.length (second :: rest))));
        [reflexivity|].
      destruct (Z.leb_spec (attempts (data j)) (failures j + 1));
        [lia|reflexivity].
Qed.

(** ** What a run of the loop leaves behind *)

Section Drain.
Import MemoryStorage Queue.

Variable getConcurrency : string -> Z.

(** One settlement, seen from [objects()]: no record is added, and the
    settled job is either gone or inactive. *)
Lemma settle_objects (job : ref) (outcome : Outcome) (now : Z) (q : Queue.t) :
  wf (jobDB q) = true ->
  In job (objects (jobDB q)) ->
  outcome <> Pending ->
  forall r, In r (objects (jobDB (processJob_settle job outcome now q))) ->
    In r (objects (jobDB q))
    /\ (r = job ->
        active (heap (jobDB (processJob_settle job outcome now q)) r) = false).
Proof.
  intros H Hin Ho r. destruct outcome as [result|message|]; [| |congruence].
  - unfold processJob_settle, executeJobLifecycleCallback.
    cbn [jobDB with_jobDB]. rewrite (objects_delete _ _ H).
    intros Hr. apply filter_In in Hr. destruct Hr as [Hr Hne].
    split; [exact Hr|]. intros ->. rewrite String.eqb_refl in Hne.
    discriminate.
  - rewrite processJob_settle_rejected. cbv zeta. cbn [jobDB].
    pose proof (stored_lookup _ _ H Hin) as Hlk. unfold _getKey in Hlk.
    rewrite (save_key_same _ _ _ Hlk).
    intros Hr. split; [exact Hr|]. intros ->. cbn [heap].
    now rewrite upd_same.
Qed.

Lemma settleAll_idle (runs : list (ref * Outcome * Z)) (q : Queue.t) :
  wf (jobDB q) = true ->
  NoDup (map (fun run => fst (fst run)) runs) ->
  (forall job outcome now, In (job, outcome, now) runs ->
     In job (objects (jobDB q)) /\ failed (heap (jobDB q) job) = None
     /\ outcome <> Pending) ->
  (forall r, In r (objects (jobDB q)) -> active (heap (jobDB q) r) = true ->
             In r (map (fun run => fst (fst run)) runs)) ->
  idle (jobDB (settleAll runs q)).
Proof.
  revert q. induction runs as [|[[job outcome] now] rest IH];
    intros q H Hnd Hall Hact.
  - intros r Hr. cbn [settleAll fold_left] in *.
    destruct (active (heap (jobDB q) r)) eqn:E; [|reflexivity].
    destruct (Hact r Hr E).
  - cbn [map fst] in Hnd. inversion Hnd as [|? ? Hjob Hrest]; subst.
    destruct (Hall job outcome now (or_introl eq_refl)) as [Hin [Hf Ho]].
    destruct (settle_step job outcome now q H Hin Hf Ho)
      as [H' [_ [Hheap Hobj]]].
    pose proof (settle_objects job outcome now q H Hin Ho) as Hso.
    cbn [settleAll fold_left].
    fold (settleAll rest (processJob_settle job outcome now q)).
    apply IH; [exact H'|exact Hrest| |].
    + intros job' outcome' now' Hin'.
      destruct (Hall job' outcome' now' (or_intror Hin')) as [Hin0 [Hf0 Ho0]].
      assert (N : job' <> job).
      { intros ->. apply Hjob.
        exact (in_map (fun run : ref * Outcome * Z => fst (fst run)) rest
                 (job, outcome', now') Hin'). }
      split; [now apply Hobj|]. split; [|exact Ho0]. now rewrite Hheap.
    + intros r Hr Ha. destruct (Hso r Hr) as [Hr0 Hsame].
      destruct (Nat.eq_dec r job) as [->|N].
      * rewrite (Hsame eq_refl) in Ha. discriminate.
      * rewrite (Hheap r N) in Ha.
        destruct (Hact r Hr0 Ha) as [E|Hrest']; [|exact Hrest'].
        cbn [fst] in E. congruence.
Qed.

Hypothesis concurrency_positive : forall n, 1 <= getConcurrency n.

(** With a positive concurrency an empty batch means that there was no
    candidate. *)
Lemma getConcurrentJobs_empty (lifespan : option Z) (q : Queue.t) :
  snd (getConcurrentJobs getConcurrency lifespan q) = [] ->
  findNextJobs (jobDB q) (timeoutUpperBound lifespan) = [].
Proof.
  unfold getConcurrentJobs.
  destruct (findNextJobs (jobDB q) (timeoutUpperBound lifespan))
    as [|nextJob rest]; [reflexivity|].
  cbn [snd]. intros E. exfalso.
  set (h := heap (jobDB q)) in *.
  assert (Hrel : filter (fun j => String.eqb (name (h j)) (name (h nextJob)))
                   (nextJob :: rest)
                 = nextJob :: filter
                     (fun j => String.eqb (name (h j)) (name (h nextJob))) rest).
  { cbn [filter]. now rewrite String.eqb_refl. }
  rewrite Hrel in E. unfold slice0 in E.
  pose proof (concurrency_positive (name (h nextJob))) as Hc.
  destruct (Z.ltb_spec (getConcurrency (name (h nextJob))) 0); [lia|].
  destruct (Z.to_nat (getConcurrency (name (h nextJob)))) eqn:En; [lia|].
  discriminate.
Qed.

Variable w : World.

Hypothesis settle : forall pass j, executeJob w pass j <> Pending.
Hypothesis no_stop : forall pass, stopCalled w pass = false.

Lemma loop_drains (fuel pass : nat) (q : Queue.t) :
  wf (jobDB q) = true ->
  status q = st_active ->
  idle (jobDB q) ->
  (total_budget (jobDB q) < fuel)%nat ->
  snd (loop getConcurrency w None fuel pass q) = true
  /\ idle (jobDB (fst (loop getConcurrency w None fuel pass q)))
  /\ findNextJobs (jobDB (fst (loop getConcurrency w None fuel pass q))) None
     = [].
Proof.
  revert pass q. induction fuel as [|fuel IH]; intros pass q H Hst Hidle Hb;
    [lia|].
  cbn [loop].
  destruct (getConcurrentJobs_effect getConcurrency None q H)
    as [Hdb [Hst1 [Hnd Hin]]].
  pose proof (getConcurrentJobs_empty None q) as Hempty.
  destruct (getConcurrentJobs getConcurrency None q) as [q1 batch].
  cbn [fst snd] in *.
  set (q2 := fold_left (fun q' job => processJob_begin job q') batch q1).
  destruct (begin_all batch q1) as [Hdb2 Hst2]. fold q2 in Hdb2, Hst2.
  assert (Hwf1 : wf (jobDB q1) = true).
  { rewrite Hdb. apply wf_with_heap; [apply activate_id|exact H]. }
  assert (Hb1 : total_budget (jobDB q1) = total_budget (jobDB q)).
  { rewrite Hdb. unfold total_budget. cbn [items heap with_heap].
    apply f_equal, map_ext. intros p. apply budget_activate. }
  set (runs := dispatch w pass batch q2).
  assert (Hjobs : map (fun run => fst (fst run)) runs = batch).
  { subst runs. unfold dispatch. rewrite map_map. cbn [fst]. apply map_id. }
  assert (Hall : forall job outcome now, In (job, outcome, now) runs ->
            In job (objects (jobDB q2)) /\ failed (heap (jobDB q2) job) = None
            /\ outcome <> Pending).
  { intros job outcome now Hr. subst runs. unfold dispatch in Hr.
    apply in_map_iff in Hr. destruct Hr as [job' [[= -> <- <-] Hj]].
    rewrite Hdb2, Hdb. destruct (Hin _ Hj) as [Ho Hf].
    split; [exact Ho|]. split; [|apply settle].
    cbn [heap with_heap]. rewrite activate_spec.
    now destruct (existsb (Nat.eqb job) batch). }
  assert (Hwf2 : wf (jobDB q2) = true) by now rewrite Hdb2.
  destruct (settleAll_budget runs q2 Hwf2) as [Hwf3 [Hb3 Hst3]];
    [now rewrite Hjobs|exact Hall|].
  assert (Hidle3 : idle (jobDB (settleAll runs q2))).
  { apply settleAll_idle; [exact Hwf2|now rewrite Hjobs|exact Hall|].
    rewrite Hjobs. intros r Hr Ha. rewrite Hdb2, Hdb in Hr, Ha.
    cbn [heap with_heap] in Ha. rewrite activate_spec in Ha.
    destruct (existsb (Nat.eqb r) batch) eqn:Ex.
    - apply existsb_exists in Ex. destruct Ex as [x [Hx E]].
      apply Nat.eqb_eq in E. now rewrite E.
    - rewrite (Hidle r Hr) in Ha. discriminate. }
  assert (Hsettles : forallb settles runs = true).
  { apply forallb_forall. intros [[job outcome] now] Hr.
    destruct (Hall _ _ _ Hr) as [_ [_ Ho]]. now destruct outcome. }
  rewrite Hsettles, no_stop.
  rewrite Hst3, Hst2, Hst1, Hst. cbn [Status_eqb andb].
  destruct batch as [|job rest] eqn:Eb.
  - cbn [List.length Nat.eqb negb fst snd].
    split; [reflexivity|]. split; [exact Hidle3|].
    unfold runs. cbn [dispatch map settleAll fold_left].
    rewrite Hdb2, Hdb. exact (Hempty eq_refl).
  - cbn [List.length Nat.eqb negb].
    apply IH; [exact Hwf3| |exact Hidle3|].
    + now rewrite Hst3, Hst2, Hst1.
    + assert (List.length runs = List.length (job :: rest))
        by (rewrite <- Hjobs; now rewrite length_map).
      rewrite Hdb2, Hb1 in Hb3. cbn [List.length] in *. lia.
Qed.

End Drain.

(** [start] drains the queue.  On an inactive queue with nothing in flight
    (no stored job marked active), with positive concurrencies, handlers
    that all settle and no call of [stop], a [start] without lifespan ends
    with every job that is still stored marked failed and inactive: every
    other job has succeeded and is deleted.  No candidate is left. *)
Theorem start_drains
    (getConcurrency : string -> Z) (w : World) (fuel : nat) (q : Queue.t) :
  wf (Queue.jobDB q) = true ->
  Queue.status q = st_inactive ->
  idle (Queue.jobDB q) ->
  (forall n, 1 <= getConcurrency n) ->
  (forall pass j, executeJob w pass j <> Pending) ->
  (forall pass, stopCalled w pass = false) ->
  (total_budget (Queue.jobDB q) < fuel)%nat ->
  let q' := fst (Queue.start getConcurrency w None fuel q) in
  snd (Queue.start getConcurrency w None fuel q) = Finished
  /\ Queue.status q' = st_inactive
  /\ MemoryStorage.findNextJobs (Queue.jobDB q') None = []
  /\ forall r, In r (Queue.getJobs q') ->
       failed (MemoryStorage.heap (Queue.jobDB q') r) <> None
       /\ active (MemoryStorage.heap (Queue.jobDB q') r) = false.
Proof.
  intros H Hs Hidle Hc Hsettle Hstop Hb q'.
  destruct (loop_drains getConcurrency Hc w Hsettle Hstop fuel O
              (Queue.with_status q st_active) H eq_refl Hidle Hb)
    as [Hdone [Hidle' Hnone]].
  subst q'. unfold Queue.start. rewrite Hs. cbn [Status_eqb].
  destruct (Queue.loop getConcurrency w None fuel O
              (Queue.with_status q st_active)) as [q1 done].
  cbn [fst snd] in *. subst done. cbn [fst snd Queue.status Queue.with_status].
  split; [reflexivity|]. split; [reflexivity|].
  split; [exact Hnone|].
  intros r Hr. unfold Queue.getJobs in Hr.
  cbn [Queue.jobDB Queue.with_status] in *.
  pose proof (Hidle' r Hr) as Ha. split; [|exact Ha].
  intros Hf.
  assert (Hin : In r (MemoryStorage.findNextJobs (Queue.jobDB q1) None)).
  { apply findNextJobs_In. split; [exact Hr|].
    cbn [eligible]. now apply selectable_spec. }
  rewrite Hnone in Hin. destruct Hin.
Qed.


(** ** [CachedAsyncStorage] *)

Section Cached.

Lemma cached_save_same (s : CachedAsyncStorage.DB) (obj : ref) :
  CachedAsyncStorage.heap (CachedAsyncStorage.save s obj)
  = CachedAsyncStorage.heap s
  /\ CachedAsyncStorage.db (CachedAsyncStorage.save s obj)
     = CachedAsyncStorage.db s.
Proof.
  unfold CachedAsyncStorage.save, CachedAsyncStorage.object_equals_string.
  cbn [CachedAsyncStorage.heap CachedAsyncStorage.db CachedAsyncStorage.with_db].
  split; [reflexivity|]. apply map_id.
Qed.

Lemma cached_saveAll_same (objs : list ref) (s : CachedAsyncStorage.DB) :
  CachedAsyncStorage.heap (CachedAsyncStorage.saveAll s objs)
  = CachedAsyncStorage.heap s
  /\ CachedAsyncStorage.db (CachedAsyncStorage.saveAll s objs)
     = CachedAsyncStorage.db s.
Proof.
  unfold CachedAsyncStorage.saveAll. revert s.
  induction objs as [|obj rest IH]; intros s; [now split|].
  cbn [fold_left]. destruct (IH (CachedAsyncStorage.save s obj)) as [-> ->].
  apply cached_save_same.
Qed.

Lemma assign_id (j : Job) (f : Fields) : id (assign j f) = id j.
Proof.
  unfold assign. now destruct (f_data f), (f_active f), (f_failed f).
Qed.

(** [merge] of a stored job writes its fields and leaves the items. *)
Lemma merge_stored (m : MemoryStorage.DB) (job : ref) (fields : Fields) :
  wf m = true -> In job (MemoryStorage.objects m) ->
  MemoryStorage.merge m job fields =
  MemoryStorage.with_heap m
    (upd (MemoryStorage.heap m) job (assign (MemoryStorage.heap m job) fields)).
Proof.
  intros H Hin. unfold MemoryStorage.merge, MemoryStorage.save,
    MemoryStorage.create.
  rewrite save_key_same; [reflexivity|].
  pose proof (stored_lookup m job H Hin) as Hlk.
  unfold MemoryStorage._getKey in *.
  cbn [MemoryStorage.heap MemoryStorage.items MemoryStorage.with_heap].
  now rewrite upd_same, assign_id.
Qed.

End Cached.

(** In [CachedAsyncStorage] the test [this.db[i] === obj.id] never holds,
    so [create] always adds the job at the end of the array, also when a
    stored job has its id, and [save], [saveAll] and [merge] never add or
    replace an element of the array.  The fields written by [merge],
    [markActive] and [resetFailedJobs] reach the stored jobs all the same,
    because the array holds the job objects themselves. *)
Theorem cached_create_appends_save_keeps
    (s : CachedAsyncStorage.DB) (obj : ref) (jobs : list ref)
    (fields : Fields) :
  CachedAsyncStorage.objects (CachedAsyncStorage.create s obj)
  = CachedAsyncStorage.objects s ++ [obj]
  /\ CachedAsyncStorage.objects (CachedAsyncStorage.save s obj)
     = CachedAsyncStorage.objects s
  /\ CachedAsyncStorage.objects (CachedAsyncStorage.saveAll s jobs)
     = CachedAsyncStorage.objects s
  /\ (CachedAsyncStorage.objects (CachedAsyncStorage.merge s obj fields)
      = CachedAsyncStorage.objects s
      /\ CachedAsyncStorage.heap (CachedAsyncStorage.merge s obj fields) obj
         = assign (CachedAsyncStorage.heap s obj) fields)
  /\ (CachedAsyncStorage.objects (CachedAsyncStorage.markActive s jobs)
      = CachedAsyncStorage.objects s
      /\ CachedAsyncStorage.heap (CachedAsyncStorage.markActive s jobs)
         = MemoryStorage.activate (CachedAsyncStorage.heap s) jobs)
  /\ (CachedAsyncStorage.objects (CachedAsyncStorage.resetFailedJobs s)
      = CachedAsyncStorage.objects s
      /\ CachedAsyncStorage.heap (CachedAsyncStorage.resetFailedJobs s)
         = MemoryStorage.unfail (CachedAsyncStorage.heap s)
             (CachedAsyncStorage.objects s)).
Proof.
  unfold CachedAsyncStorage.objects.
  split.
  { unfold CachedAsyncStorage.create, CachedAsyncStorage.object_equals_string.
    assert (E : existsb (fun _ : ref => false) (CachedAsyncStorage.db s) = false)
      by (induction (CachedAsyncStorage.db s); auto).
    now rewrite E. }
  split; [apply cached_save_same|].
  split; [apply cached_saveAll_same|].
  split.
  { unfold CachedAsyncStorage.merge.
    destruct (cached_save_same
                (CachedAsyncStorage.with_heap s
                   (upd (CachedAsyncStorage.heap s) obj
                      (assign (CachedAsyncStorage.heap s obj) fields))) obj)
      as [-> ->].
    cbn [CachedAsyncStorage.heap CachedAsyncStorage.db
         CachedAsyncStorage.with_heap].
    split; [reflexivity|apply upd_same]. }
  split.
  - unfold CachedAsyncStorage.markActive.
    destruct (cached_saveAll_same jobs
                (CachedAsyncStorage.with_heap s
                   (MemoryStorage.activate (CachedAsyncStorage.heap s) jobs)))
      as [-> ->].
    now split.
  - unfold CachedAsyncStorage.resetFailedJobs, CachedAsyncStorage.objects.
    destruct (cached_saveAll_same (CachedAsyncStorage.db s)
                (CachedAsyncStorage.with_heap s
                   (MemoryStorage.unfail (CachedAsyncStorage.heap s)
                      (CachedAsyncStorage.db s))))
      as [-> ->].
    now split.
Qed.

Section Agreement.

Lemma existsb_map_compose {A B : Type} (f : B -> bool) (g : A -> B)
    (l : list A) :
  existsb f (map g l) = existsb (fun x => f (g x)) l.
Proof.
  induction l as [|x rest IH]; simpl; [reflexivity|]. now rewrite IH.
Qed.

Lemma cached_create (s : CachedAsyncStorage.DB) (obj : ref) :
  CachedAsyncStorage.create s obj
  = CachedAsyncStorage.with_db s (CachedAsyncStorage.db s ++ [obj]).
Proof.
  unfold CachedAsyncStorage.create, CachedAsyncStorage.object_equals_string.
  assert (E : existsb (fun _ : ref => false) (CachedAsyncStorage.db s) = false)
    by (induction (CachedAsyncStorage.db s); auto).
  now rewrite E.
Qed.

Lemma cached_merge (s : CachedAsyncStorage.DB) (job : ref) (fields : Fields) :
  CachedAsyncStorage.heap (CachedAsyncStorage.merge s job fields)
  = upd (CachedAsyncStorage.heap s) job
      (assign (CachedAsyncStorage.heap s job) fields)
  /\ CachedAsyncStorage.db (CachedAsyncStorage.merge s job fields)
     = CachedAsyncStorage.db s.
Proof.
  unfold CachedAsyncStorage.merge.
  destruct (cached_save_same
              (CachedAsyncStorage.with_heap s
                 (upd (CachedAsyncStorage.heap s) job
                    (assign (CachedAsyncStorage.heap s job) fields))) job)
    as [-> ->].
  now split.
Qed.

Lemma cached_markActive (s : CachedAsyncStorage.DB) (jobs : list ref) :
  CachedAsyncStorage.heap (CachedAsyncStorage.markActive s jobs)
  = MemoryStorage.activate (CachedAsyncStorage.heap s) jobs
  /\ CachedAsyncStorage.db (CachedAsyncStorage.markActive s jobs)
     = CachedAsyncStorage.db s.
Proof.
  unfold CachedAsyncStorage.markActive.
  destruct (cached_saveAll_same jobs
              (CachedAsyncStorage.with_heap s
                 (MemoryStorage.activate (CachedAsyncStorage.heap s) jobs)))
    as [-> ->].
  now split.
Qed.

Lemma cached_resetFailedJobs (s : CachedAsyncStorage.DB) :
  CachedAsyncStorage.heap (CachedAsyncStorage.resetFailedJobs s)
  = MemoryStorage.unfail (CachedAsyncStorage.heap s) (CachedAsyncStorage.db s)
  /\ CachedAsyncStorage.db (CachedAsyncStorage.resetFailedJobs s)
     = CachedAsyncStorage.db s.
Proof.
  unfold CachedAsyncStorage.resetFailedJobs, CachedAsyncStorage.objects.
  destruct (cached_saveAll_same (CachedAsyncStorage.db s)
              (CachedAsyncStorage.with_heap s
                 (MemoryStorage.unfail (CachedAsyncStorage.heap s)
                    (CachedAsyncStorage.db s))))
    as [-> ->].
  now split.
Qed.

Variables (m : MemoryStorage.DB) (c : CachedAsyncStorage.DB).

Hypothesis same : same_jobs m c.

Lemma agree_findNextJobs (ub : option Z) :
  MemoryStorage.findNextJobs m ub = CachedAsyncStorage.findNextJobs c ub.
Proof.
  destruct same as [_ [Hh Ho]].
  unfold MemoryStorage.findNextJobs, CachedAsyncStorage.findNextJobs.
  now rewrite <- Ho, <- Hh.
Qed.

Lemma agree_create (job : ref) :
  (job < MemoryStorage.next m)%nat ->
  (forall old, In old (MemoryStorage.objects m) ->
     id (MemoryStorage.heap m old) <> id (MemoryStorage.heap m job)) ->
  same_jobs (MemoryStorage.create m job) (CachedAsyncStorage.create c job).
Proof.
  destruct same as [H [Hh Ho]]. intros L Hfresh.
  split; [now apply wf_create|]. rewrite cached_create.
  split; [exact Hh|].
  rewrite (create_appends m job H L Hfresh), Ho. reflexivity.
Qed.

Lemma agree_deleteMany (jobs : list ref) :
  same_jobs (MemoryStorage.deleteMany m jobs)
    (CachedAsyncStorage.deleteMany c jobs).
Proof.
  destruct same as [H [Hh Ho]].
  split; [unfold MemoryStorage.deleteMany; now apply wf_delete_keys|].
  split; [exact Hh|].
  rewrite (objects_deleteMany m jobs H).
  unfold CachedAsyncStorage.deleteMany, CachedAsyncStorage.objects in *.
  cbn [CachedAsyncStorage.db CachedAsyncStorage.with_db].
  rewrite <- Ho, <- Hh. apply filter_ext. intros r.
  now rewrite existsb_map_compose.
Qed.

Lemma agree_delete (job : ref) :
  same_jobs (MemoryStorage.delete m job) (CachedAsyncStorage.delete c job).
Proof.
  destruct same as [H [Hh Ho]].
  split; [now apply wf_delete|]. split; [exact Hh|].
  rewrite (objects_delete m job H).
  unfold CachedAsyncStorage.delete, CachedAsyncStorage.objects in *.
  cbn [CachedAsyncStorage.db CachedAsyncStorage.with_db].
  now rewrite <- Ho, <- Hh.
Qed.

Lemma agree_deleteByName (jobName : string) :
  same_jobs (MemoryStorage.deleteByName m jobName)
    (CachedAsyncStorage.deleteByName c jobName).
Proof.
  pose proof same as Hs. destruct Hs as [H [Hh Ho]].
  unfold MemoryStorage.deleteByName, CachedAsyncStorage.deleteByName.
  rewrite <- Ho, <- Hh.
  destruct (filter _ (MemoryStorage.objects m)) as [|j rest];
    [exact same|apply agree_deleteMany].
Qed.

Lemma agree_deleteAll :
  same_jobs (MemoryStorage.deleteAll m) (CachedAsyncStorage.deleteAll c).
Proof.
  destruct same as [H [Hh Ho]].
  split; [unfold MemoryStorage.deleteAll; now apply wf_delete_keys|].
  split; [exact Hh|]. now rewrite objects_deleteAll.
Qed.

Lemma agree_merge (job : ref) (fields : Fields) :
  In job (MemoryStorage.objects m) ->
  same_jobs (MemoryStorage.merge m job fields)
    (CachedAsyncStorage.merge c job fields).
Proof.
  destruct same as [H [Hh Ho]]. intros Hin.
  rewrite (merge_stored m job fields H Hin).
  destruct (cached_merge c job fields) as [Eh Ed].
  split.
  { apply wf_with_heap; [|exact H]. intros r. unfold upd.
    destruct (Nat.eqb_spec r job) as [->|]; [apply assign_id|reflexivity]. }
  split.
  - rewrite Eh, <- Hh. reflexivity.
  - unfold CachedAsyncStorage.objects. rewrite Ed. exact Ho.
Qed.

Lemma agree_markActive (jobs : list ref) :
  (forall j, In j jobs -> In j (MemoryStorage.objects m)) ->
  same_jobs (MemoryStorage.markActive m jobs)
    (CachedAsyncStorage.markActive c jobs).
Proof.
  destruct same as [H [Hh Ho]]. intros Hin.
  rewrite (markActive_wf m jobs H Hin).
  destruct (cached_markActive c jobs) as [Eh Ed].
  split; [apply wf_with_heap; [apply activate_id|exact H]|].
  split.
  - rewrite Eh, <- Hh. reflexivity.
  - unfold CachedAsyncStorage.objects. rewrite Ed. exact Ho.
Qed.

Lemma agree_resetFailedJobs :
  same_jobs (MemoryStorage.resetFailedJobs m)
    (CachedAsyncStorage.resetFailedJobs c).
Proof.
  destruct same as [H [Hh Ho]].
  rewrite (resetFailedJobs_wf m H).
  destruct (cached_resetFailedJobs c) as [Eh Ed].
  split; [apply wf_with_heap; [apply unfail_id|exact H]|].
  split.
  - rewrite Eh, <- Hh. unfold CachedAsyncStorage.objects in Ho.
    rewrite <- Ho. reflexivity.
  - unfold CachedAsyncStorage.objects. rewrite Ed. exact Ho.
Qed.

End Agreement.

(** The two stores answer alike as long as ids are not reused.  When a
    [MemoryStorage] and a [CachedAsyncStorage] hold the same job objects in
    the same order, [findNextJobs] returns the same list from both, and they
    still hold the same jobs after the same [create] of a job with a new id,
    [delete] of a job or of an array of jobs, [deleteByName], [deleteAll],
    [merge] into a stored job, [markActive] of stored jobs, and
    [resetFailedJobs]. *)
Theorem stores_agree (m : MemoryStorage.DB) (c : CachedAsyncStorage.DB) :
  same_jobs m c ->
  (forall timeoutUpperBound,
     MemoryStorage.findNextJobs m timeoutUpperBound
     = CachedAsyncStorage.findNextJobs c timeoutUpperBound)
  /\ (forall job,
        (job < MemoryStorage.next m)%nat ->
        (forall old, In old (MemoryStorage.objects m) ->
           id (MemoryStorage.heap m old) <> id (MemoryStorage.heap m job)) ->
        same_jobs (MemoryStorage.create m job)
          (CachedAsyncStorage.create c job))
  /\ (forall job,
        same_jobs (MemoryStorage.delete m job)
          (CachedAsyncStorage.delete c job))
  /\ (forall jobs,
        same_jobs (MemoryStorage.deleteMany m jobs)
          (CachedAsyncStorage.deleteMany c jobs))
  /\ (forall jobName,
        same_jobs (MemoryStorage.deleteByName m jobName)
          (CachedAsyncStorage.deleteByName c jobName))
  /\ same_jobs (MemoryStorage.deleteAll m) (CachedAsyncStorage.deleteAll c)
  /\ (forall job fields,
        In job (MemoryStorage.objects m) ->
        same_jobs (MemoryStorage.merge m job fields)
          (CachedAsyncStorage.merge c job fields))
  /\ (forall jobs,
        (forall j, In j jobs -> In j (MemoryStorage.objects m)) ->
        same_jobs (MemoryStorage.markActive m jobs)
          (CachedAsyncStorage.markActive c jobs))
  /\ same_jobs (MemoryStorage.resetFailedJobs m)
       (CachedAsyncStorage.resetFailedJobs c).
Proof.
  intros Hs.
  split; [apply (agree_findNextJobs m c Hs)|].
  split; [apply (agree_create m c Hs)|].
  split; [apply (agree_delete m c Hs)|].
  split; [apply (agree_deleteMany m c Hs)|].
  split; [apply (agree_deleteByName m c Hs)|].
  split; [apply (agree_deleteAll m c Hs)|].
  split; [apply (agree_merge m c Hs)|].
  split; [apply (agree_markActive m c Hs)|apply (agree_resetFailedJobs m c Hs)].
Qed.

(** ** Order of dispatch, lifespans, and [createJob] with a start *)

(** With a concurrency of at least [1] the batch starts with the first
    candidate, the job of highest priority (the oldest among those); with a
    concurrency of exactly [1] the batch is that job alone, so the jobs are
    dispatched one per pass, strictly in the order of [findNextJobs]. *)
Theorem batch_starts_with_first_candidate
    (getConcurrency : string -> Z) (lifespan : option Z) (q : Queue.t)
    (nextJob : ref) (others : list ref) :
  MemoryStorage.findNextJobs (Queue.jobDB q) (Queue.timeoutUpperBound lifespan)
  = nextJob :: others ->
  let concurrency :=
    getConcurrency (name (MemoryStorage.heap (Queue.jobDB q) nextJob)) in
  1 <= concurrency ->
  (exists rest,
     snd (Queue.getConcurrentJobs getConcurrency lifespan q) = nextJob :: rest)
  /\ (concurrency = 1 ->
      snd (Queue.getConcurrentJobs getConcurrency lifespan q) = [nextJob]).
Proof.
  intros E concurrency Hc. unfold Queue.getConcurrentJobs. rewrite E.
  cbn [snd]. fold concurrency.
  set (h := MemoryStorage.heap (Queue.jobDB q)) in *.
  assert (Hrel : filter (fun j => String.eqb (name (h j)) (name (h nextJob)))
                   (nextJob :: others)
                 = nextJob :: filter
                     (fun j => String.eqb (name (h j)) (name (h nextJob)))
                     others).
  { cbn [filter]. now rewrite String.eqb_refl. }
  rewrite Hrel. unfold slice0.
  destruct (Z.ltb_spec concurrency 0); [lia|].
  destruct (Z.to_nat concurrency) as [|n] eqn:En; [lia|].
  cbn [firstn]. split; [eexists; reflexivity|].
  intros E1. rewrite E1 in En. change (Z.to_nat 1) with 1%nat in En.
  injection En as <-. reflexivity.
Qed.

Section Untimed.
Import MemoryStorage Queue.

Variable getConcurrency : string -> Z.

Lemma settle_heap_other (job r : ref) (outcome : Outcome) (now : Z)
    (q : Queue.t) :
  r <> job ->
  heap (jobDB (processJob_settle job outcome now q)) r = heap (jobDB q) r.
Proof.
  intros N. destruct outcome as [result|message|]; [reflexivity| |reflexivity].
  rewrite processJob_settle_rejected. cbv zeta. cbn [jobDB heap].
  now apply upd_other.
Qed.

Lemma settleAll_heap_other (runs : list (ref * Outcome * Z)) (r : ref)
    (q : Queue.t) :
  ~ In r (map (fun run => fst (fst run)) runs) ->
  heap (jobDB (settleAll runs q)) r = heap (jobDB q) r.
Proof.
  revert q. induction runs as [|[[job outcome] now] rest IH]; intros q Hr;
    [reflexivity|].
  cbn [map fst In] in Hr. cbn [settleAll fold_left].
  fold (settleAll rest (processJob_settle job outcome now q)).
  rewrite IH by tauto. apply settle_heap_other. intros ->. tauto.
Qed.

Lemma loop_skips_untimed (w : World) (lifespan : Z) (r : ref)
    (fuel pass : nat) (q : Queue.t) :
  timeout (heap (jobDB q) r) <= 0 ->
  heap (jobDB (fst (loop getConcurrency w (Some lifespan) fuel pass q))) r
  = heap (jobDB q) r.
Proof.
  revert pass q. induction fuel as [|fuel IH]; intros pass q Ht;
    [reflexivity|].
  cbn [loop].
  set (remaining := lifespan - (dateNow w pass - startTime w)).
  pose proof (getConcurrentJobs_incl getConcurrency (Some remaining) q r)
    as Hincl.
  assert (Hh1 : forall x,
            heap (jobDB (fst (getConcurrentJobs getConcurrency
                                (Some remaining) q))) x
            = activate (heap (jobDB q))
                (snd (getConcurrentJobs getConcurrency (Some remaining) q)) x).
  { intros x. unfold getConcurrentJobs.
    destruct (findNextJobs (jobDB q) (timeoutUpperBound (Some remaining)));
      reflexivity. }
  destruct (getConcurrentJobs getConcurrency (Some remaining) q)
    as [q1 batch].
  cbn [fst snd] in *.
  assert (Hnot : ~ In r batch).
  { intros Hin. apply Hincl in Hin. apply findNextJobs_In in Hin.
    destruct Hin as [_ He]. cbn [timeoutUpperBound eligible] in He.
    apply selectable_within_spec in He. lia. }
  assert (E1 : heap (jobDB q1) r = heap (jobDB q) r).
  { rewrite Hh1, activate_spec.
    destruct (existsb (Nat.eqb r) batch) eqn:Ex; [|reflexivity].
    apply existsb_exists in Ex. destruct Ex as [x [Hx E]].
    apply Nat.eqb_eq in E. subst x. contradiction. }
  set (q2 := fold_left (fun q' job => processJob_begin job q') batch q1).
  destruct (begin_all batch q1) as [Hdb2 _]. fold q2 in Hdb2.
  set (runs := dispatch w pass batch q2).
  assert (Hjobs : map (fun run => fst (fst run)) runs = batch).
  { unfold runs, dispatch. rewrite map_map. cbn [fst]. apply map_id. }
  assert (E3 : heap (jobDB (settleAll runs q2)) r = heap (jobDB q) r).
  { rewrite settleAll_heap_other by now rewrite Hjobs.
    now rewrite Hdb2. }
  destruct (forallb settles runs); [|exact E3].
  set (q4 := if stopCalled w pass then stop (settleAll runs q2)
             else settleAll runs q2).
  assert (Hdb4 : jobDB q4 = jobDB (settleAll runs q2))
    by (unfold q4; now destruct (stopCalled w pass)).
  destruct (Status_eqb (status q4) st_active
            && negb (Nat.eqb (List.length batch) 0)).
  - rewrite IH; rewrite Hdb4; [exact E3|]. now rewrite E3.
  - cbn [fst]. now rewrite Hdb4.
Qed.

End Untimed.

(** A run with a lifespan never touches a job without timeout: whatever
    the clock, the fuel and the outcomes of the handlers, the record of a
    job whose [timeout] is [0] is after [start(lifespan)] what it was
    before. *)
Theorem lifespan_skips_untimed
    (getConcurrency : string -> Z) (w : World) (lifespan : Z) (fuel : nat)
    (q : Queue.t) (r : ref) :
  timeout (MemoryStorage.heap (Queue.jobDB q) r) = 0 ->
  MemoryStorage.heap
    (Queue.jobDB (fst (Queue.start getConcurrency w (Some lifespan) fuel q))) r
  = MemoryStorage.heap (Queue.jobDB q) r.
Proof.
  intros Ht. unfold Queue.start.
  destruct (Status_eqb (Queue.status q) st_active); [reflexivity|].
  pose proof (loop_skips_untimed getConcurrency w lifespan r fuel O
                (Queue.with_status q st_active)) as H.
  cbn [Queue.jobDB Queue.with_status] in H.
  destruct (Queue.loop getConcurrency w (Some lifespan) fuel O
              (Queue.with_status q st_active)) as [q1 [|]];
    cbn [fst Queue.jobDB Queue.with_status] in *; apply H; lia.
Qed.

Section CreateAndRun.
Import MemoryStorage Queue.



End CreateAndRun.


(** ** The further theorems at the sample queue *)

Ltac stored_cases H :=
  vm_compute in H;
  repeat (destruct H as [H|H]; [subst|]); try contradiction.

Lemma sample_queue_idle : idle (Queue.jobDB sample_queue).
Proof. intros r Hr. stored_cases Hr; reflexivity. Qed.

Lemma sample_concurrency_positive (n : string) : 1 <= sample_concurrency n.
Proof. unfold sample_concurrency. destruct (String.eqb n "mail"); lia. Qed.


(** [flushQueue('mail')] on the sample queue leaves the [report] job. *)
Lemma flushQueue_by_name_witness :
  Queue.getJobs (Queue.flushQueue (Some "mail") sample_queue)
  = filter (fun r => negb (String.eqb
                             (name (MemoryStorage.heap
                                      (Queue.jobDB sample_queue) r)) "mail"))
      (Queue.getJobs sample_queue).
Proof.
  apply (flushQueue_by_name "mail" sample_queue eq_refl).
  discriminate.
Defined.

(** A job with a new id, added to the sample queue. *)
Lemma createJob_appends_witness :
  Queue.getJobs
    (fst (Queue.createJob_store (Some "report") (Payload.mk (Some "r2") "{}")
            (Options.mk None None None) "c0ffee" 3000 sample_queue))
  = Queue.getJobs sample_queue ++ [4%nat].
Proof.
  apply (createJob_appends "report" (Payload.mk (Some "r2") "{}")
           (Options.mk None None None) "c0ffee" 3000 sample_queue eq_refl
           ltac:(discriminate) eq_refl eq_refl).
  intros r Hr. stored_cases Hr; vm_compute; discriminate.
Defined.

(** [resetFailedJobs] on the sample queue whose [report] job has failed. *)
Lemma resetFailedJobs_effect_witness :
  In O (MemoryStorage.findNextJobs
          (MemoryStorage.resetFailedJobs (Queue.jobDB sample_failed)) None).
Proof.
  destruct (resetFailedJobs_effect (Queue.jobDB sample_failed) eq_refl)
    as [_ [_ [_ [_ H]]]].
  apply H. split; [vm_compute; tauto|reflexivity].
Defined.


(** The first [mail] job fails after [flushQueue('mail')] has deleted it. *)
Lemma processJob_stores_deleted_job_witness :
  Queue.getJobs
    (Queue.processJob 1%nat (Rejected "boom") 2000
       (Queue.flushQueue (Some "mail") sample_queue))
  = Queue.getJobs (Queue.flushQueue (Some "mail") sample_queue) ++ [1%nat].
Proof.
  apply (processJob_stores_deleted_job 1%nat "boom" "sent" 2000
           (Queue.flushQueue (Some "mail") sample_queue) eq_refl).
  - vm_compute. lia.
  - intros r Hr. stored_cases Hr; vm_compute; discriminate.
Defined.

(** Two selections on the sample queue. *)
Lemma consecutive_batches_disjoint_witness :
  NoDup (snd (Queue.getConcurrentJobs sample_concurrency None sample_queue)).
Proof.
  apply (consecutive_batches_disjoint sample_concurrency None (Some 60000)
           sample_queue eq_refl).
Defined.

(** The sample queue started with a lifespan of 400 ms. *)
Lemma short_lifespan_runs_nothing_witness :
  Queue.start sample_concurrency sample_world (Some 400) 3 sample_queue
  = (sample_queue, Finished).
Proof.
  apply (short_lifespan_runs_nothing sample_concurrency sample_world 400 2
           sample_queue).
  - vm_compute. discriminate.
  - reflexivity.
Defined.

(** The sample queue, run to its end: the [report] job is left, failed. *)
Lemma start_drains_witness :
  snd (Queue.start sample_concurrency sample_world None 10 sample_queue)
  = Finished
  /\ MemoryStorage.findNextJobs
       (Queue.jobDB
          (fst (Queue.start sample_concurrency sample_world None 10
                  sample_queue))) None
     = [].
Proof.
  destruct (start_drains sample_concurrency sample_world 10 sample_queue
              eq_refl eq_refl sample_queue_idle sample_concurrency_positive
              sample_world_settles (fun _ => eq_refl)
              ltac:(vm_compute; lia))
    as [Hdone [_ [Hnone _]]].
  split; [exact Hdone|exact Hnone].
Defined.


Lemma sample_same_jobs : same_jobs (Queue.jobDB sample_queue) sample_cached.
Proof. repeat split. Qed.

(** The sample jobs in both stores. *)
Lemma stores_agree_witness :
  MemoryStorage.findNextJobs (Queue.jobDB sample_queue) None
  = CachedAsyncStorage.findNextJobs sample_cached None
  /\ same_jobs (MemoryStorage.resetFailedJobs (Queue.jobDB sample_queue))
       (CachedAsyncStorage.resetFailedJobs sample_cached).
Proof.
  destruct (stores_agree (Queue.jobDB sample_queue) sample_cached
              sample_same_jobs) as [Hfind [_ [_ [_ [_ [_ [_ [_ Hreset]]]]]]]].
  split; [apply Hfind|exact Hreset].
Defined.

(** The first batch of the sample queue is the [report] job. *)
Lemma batch_starts_with_first_candidate_witness :
  snd (Queue.getConcurrentJobs sample_concurrency None sample_queue) = [O].
Proof.
  apply (batch_starts_with_first_candidate sample_concurrency None
           sample_queue O [1%nat; 2%nat; 3%nat] eq_refl
           ltac:(vm_compute; discriminate)).
  reflexivity.
Defined.

(** The [sync] job of the sample queue under a lifespan of one minute. *)
Lemma lifespan_skips_untimed_witness :
  MemoryStorage.heap
    (Queue.jobDB
       (fst (Queue.start sample_concurrency sample_world (Some 60000) 10
               sample_untimed))) 4%nat
  = MemoryStorage.heap (Queue.jobDB sample_untimed) 4%nat.
Proof.
  apply (lifespan_skips_untimed sample_concurrency sample_world 60000 10
           sample_untimed 4%nat).
  reflexivity.
Defined.


(** ** A new job with the id of a failed job *)

(** An accepted [createJob] whose id is the id of a stored job marked
    failed (with no reset pending) puts a new job object in the place of that
    job in [getJobs()], with [failed = null]; the old object keeps its
    [failed] time and is no longer stored. *)
Theorem createJob_replaces_failed_job
    (name : string) (payload : Payload.t) (options : Options.t)
    (uuid : string) (now : Z) (q : Queue.t) (old : ref) :
  wf (Queue.jobDB q) = true ->
  Queue.executeFailedJobsOnStart q = false ->
  name <> "" ->
  is_negative (Options.timeout options) = false ->
  is_negative (Options.attempts options) = false ->
  In old (Queue.getJobs q) ->
  id (MemoryStorage.heap (Queue.jobDB q) old) = str_or (Payload.id payload) uuid ->
  failed (MemoryStorage.heap (Queue.jobDB q) old) <> None ->
  let q' := fst (Queue.createJob_store (Some name) payload options uuid now q) in
  let new := MemoryStorage.next (Queue.jobDB q) in
  Queue.getJobs q'
  = map (fun r => if Nat.eqb r old then new else r) (Queue.getJobs q)
  /\ failed (MemoryStorage.heap (Queue.jobDB q') new) = None
  /\ failed (MemoryStorage.heap (Queue.jobDB q') old)
     = failed (MemoryStorage.heap (Queue.jobDB q) old)
  /\ ~ In old (Queue.getJobs q').
Proof.
  intros H Hflag Hn Ht Ha Hold Hid Hfailed q' new.
  pose proof (objects_lt _ _ H Hold) as Lold.
  assert (Hobj : Queue.getJobs q'
                 = map (fun r => if Nat.eqb r old then new else r)
                     (Queue.getJobs q)).
  { subst q'. unfold Queue.getJobs in *.
    rewrite (createJob_store_ok _ _ _ _ _ _ Hn Ht Ha).
    cbv zeta. cbn [fst Queue.jobDB Queue.with_jobDB].
    destruct (createJob_alloc q (Queue.newJob name payload options uuid now) H)
      as [Hwf [Hobj [Hnx [Hnew Hids]]]].
    rewrite resetFailedOnce_next. fold new.
    set (db1 := fst (MemoryStorage.alloc
                       (Queue.jobDB (Queue.resetFailedOnce q))
                       (Queue.newJob name payload options uuid now))) in *.
    rewrite <- Hobj. apply create_replaces; try assumption.
    - rewrite Hnx. subst new. lia.
    - now rewrite Hobj.
    - fold new in Hnew. rewrite (Hids old Hold), Hid, Hnew. reflexivity. }
  assert (Hheap : forall r,
            MemoryStorage.heap (Queue.jobDB q') r
            = upd (MemoryStorage.heap (Queue.jobDB q)) new
                (Queue.newJob name payload options uuid now) r).
  { intros r. subst q'. rewrite (createJob_store_ok _ _ _ _ _ _ Hn Ht Ha).
    cbv zeta. unfold Queue.resetFailedOnce. rewrite Hflag. reflexivity. }
  split; [exact Hobj|]. split; [|split].
  - rewrite Hheap, upd_same. reflexivity.
  - rewrite Hheap, upd_other; [reflexivity|]. subst new. lia.
  - rewrite Hobj. intros Hin. apply in_map_iff in Hin.
    destruct Hin as [x [E Hx]].
    destruct (Nat.eqb_spec x old) as [Ex|N]; [|congruence].
    subst new. lia.
Qed.

(** The [report] job of the sample queue, failed, and a new job with its
    id. *)
Lemma createJob_replaces_failed_job_witness :
  Queue.getJobs
    (fst (Queue.createJob_store (Some "report") (Payload.mk (Some "r1") "{}")
            (Options.mk None None None) "c0ffee" 3000 sample_failed))
  = [4; 1; 2; 3]%nat.
Proof.
  apply (createJob_replaces_failed_job "report" (Payload.mk (Some "r1") "{}")
           (Options.mk None None None) "c0ffee" 3000 sample_failed O
           eq_refl eq_refl ltac:(discriminate) eq_refl eq_refl
           ltac:(vm_compute; tauto) eq_refl ltac:(vm_compute; discriminate)).
Defined.
